(** * polyfem: augmented-Lagrangian solver and objective composition

    A shallow embedding of [src/polyfem/solver/ALSolver.cpp] and of the
    composite objectives of [src/polyfem/solver/Objective.cpp].

    Conventions.
    - A C++ [double] of the objectives (volumes, quadrature weights,
      integrands) is a rational [Q]: arithmetic is exact, and a quotient
      by zero, which is no finite number, is a failure.  In the solver,
      where the code tests [std::isfinite] and compares against a possible
      NaN, the type [double] below adds the two infinities and NaN, and
      the product, quotient and difference of two finite doubles are the
      exact result rounded to a double, an infinity on overflow.
    - [Eigen::VectorXd] is [list Q]; element-wise operations whose operands
      differ in size trip an Eigen assertion and are modelled as failing.
    - [std::map] is stdpp's [gmap]; [std::vector] is [list].
    - The collaborators of the solver (problem, minimizer, forms, hooks) are
      interfaces in the code and records of operations on an abstract world
      state here. *)

From Stdlib Require Import ZArith QArith Qabs Qminmax Lqa Lia List Ascii String Bool.
From Stdlib Require Import Decimal DecimalString DecimalNat.
From stdpp Require Import base option list gmap strings sorting.
Import ListNotations.

Local Open Scope Q_scope.

(** ** Doubles with non-finite values *)

Inductive double : Type :=
| Fin (q : Q)
| PInf
| NInf
| NaN.

Definition Qltb (x y : Q) : bool := (Qnum x * QDen y <? Qnum y * QDen x)%Z.
Definition Qleb (x y : Q) : bool := (Qnum x * QDen y <=? Qnum y * QDen x)%Z.
Definition Qeqb (x y : Q) : bool := (Qnum x * QDen y =? Qnum y * QDen x)%Z.

(** [x / y] where the quotient is a finite number; [None] is a zero
    divisor, on which the division of doubles gives an infinity or NaN. *)
Definition quotient (x y : Q) : option Q :=
  if Qeqb y 0 then None else Some (x / y).

(** [f] is continuous at [a]. *)
Definition continuous_at (f : Q -> Q) (a : Q) : Prop :=
  forall eps, 0 < eps ->
    exists delta, 0 < delta
      /\ forall x, Qabs (x - a) < delta -> Qabs (f x - f a) < eps.

Module Double.

(** [std::isfinite] *)
Definition isfinite (d : double) : bool :=
  match d with Fin _ => true | _ => false end.

(** [x < y]; every comparison with NaN is false. *)
Definition lt (x y : double) : bool :=
  match x, y with
  | NaN, _ | _, NaN => false
  | Fin a, Fin b => Qltb a b
  | NInf, NInf => false
  | NInf, _ => true
  | _, NInf => false
  | PInf, _ => false
  | Fin _, PInf => true
  end.

(** [x <= y] *)
Definition le (x y : double) : bool :=
  match x, y with
  | NaN, _ | _, NaN => false
  | Fin a, Fin b => Qleb a b
  | NInf, _ => true
  | _, NInf => false
  | _, PInf => true
  | PInf, Fin _ => false
  end.

(** The sign of a double that is not NaN: -1, 0 or 1. *)
Definition sign (x : double) : Z :=
  match x with
  | Fin q => Z.sgn (Qnum q)
  | PInf => 1
  | NInf => -1
  | NaN => 0
  end.

Definition of_sign (s : Z) : double :=
  if (0 <? s)%Z then PInf else if (s <? 0)%Z then NInf else NaN.

(** The arithmetic of finite doubles is the exact operation followed by
    the rounding [round] of the real result to a double, which gives an
    infinity on overflow; [round] is a parameter of the model. *)

(** [x * y] *)
Definition mul (round : Q -> double) (x y : double) : double :=
  match x, y with
  | NaN, _ | _, NaN => NaN
  | Fin a, Fin b => round (a * b)
  | _, _ => of_sign (sign x * sign y)
  end.

(** [x / y]; a zero divisor is taken as [+0.0]. *)
Definition div (round : Q -> double) (x y : double) : double :=
  match x, y with
  | NaN, _ | _, NaN => NaN
  | Fin a, Fin b => if Qeqb b 0 then of_sign (sign x) else round (a / b)
  | Fin _, _ => Fin 0
  | _, Fin b => if Qeqb b 0 then x else of_sign (sign x * sign y)
  | _, _ => NaN
  end.

(** [x - y] *)
Definition sub (round : Q -> double) (x y : double) : double :=
  match x, y with
  | NaN, _ | _, NaN => NaN
  | Fin a, Fin b => round (a - b)
  | Fin _, PInf => NInf
  | Fin _, NInf => PInf
  | PInf, PInf | NInf, NInf => NaN
  | PInf, _ => PInf
  | NInf, _ => NInf
  end.

(** What is asked of a rounding: it is monotone, so that it never gives
    NaN, and it leaves a number that is a double alone. *)
Definition rounding (round : Q -> double) : Prop :=
  (forall a b : Q, a <= b -> le (round a) (round b) = true)
  /\ (forall a b : Q, round a = Fin b -> round b = Fin b).

(** [sqrt(x)], over a square root [rsqrt] of the non-negative rationals
    (the C library's; a parameter of the model). *)
Definition sqrt (rsqrt : Q -> Q) (x : double) : double :=
  match x with
  | Fin q => if Qltb q 0 then NaN else Fin (rsqrt q)
  | PInf => PInf
  | NInf | NaN => NaN
  end.

End Double.

(** A square root on [Q] to run the model with: exact on the rationals
    [n/d] for which [n*d] is a perfect square, rounded down to a multiple
    of [1/d] otherwise. *)
Definition Qsqrt_floor (q : Q) : Q :=
  Z.sqrt (Qnum q * QDen q) # Qden q.

(** ** Eigen vectors and matrices *)

Module Eigen.

(** [Eigen::VectorXd] *)
Definition VectorXd : Type := list Q.

(** [Eigen::MatrixXd], as the list of its rows ([m.row(q)] is the [q]-th
    element); a matrix with no row carries no column count. *)
Definition MatrixXd : Type := list VectorXd.

Definition rows (m : MatrixXd) : nat := length m.

Definition cols (m : MatrixXd) : nat :=
  match m with
  | [] => O
  | r :: _ => length r
  end.

(** [VectorXd::Zero(n)], [v.setZero(n)] *)
Definition Zero (n : nat) : VectorXd := repeat 0 n.

(** [MatrixXd::Zero(r, c)] *)
Definition ZeroMatrix (r c : nat) : MatrixXd := repeat (Zero c) r.

(** [c * v] *)
Definition scale (c : Q) (v : VectorXd) : VectorXd := map (Qmult c) v.

(** [u + v]; [None] is the assertion on operands of different sizes. *)
Definition add (u v : VectorXd) : option VectorXd :=
  if (length u =? length v)%nat then Some (zip_with Qplus u v) else None.

(** [u - v] *)
Definition sub (u v : VectorXd) : option VectorXd :=
  if (length u =? length v)%nat then Some (zip_with Qminus u v) else None.

(** [v.squaredNorm()] *)
Definition squaredNorm (v : VectorXd) : Q :=
  fold_left (fun acc x => acc + x * x) v 0.

(** The conversion of a vector to the one-column matrix it is. *)
Definition as_matrix (v : VectorXd) : MatrixXd := map (fun x => [x]) v.

(** [v += m] for a vector [v] and a matrix expression [m]: defined when
    [m] has the rows of [v] and one column. *)
Definition add_assign_matrix (v : VectorXd) (m : MatrixXd) : option VectorXd :=
  if (rows m =? length v)%nat && forallb (fun r => (length r =? 1)%nat) m
  then Some (zip_with Qplus v (map (fun r => hd 0 r) m))
  else None.

(** [m1 + m2] on matrices of the same shape. *)
Definition add_matrix (m1 m2 : MatrixXd) : option MatrixXd :=
  if (rows m1 =? rows m2)%nat
     && forallb (fun rr => (length rr.1 =? length rr.2)%nat) (zip m1 m2)
  then Some (zip_with (zip_with Qplus) m1 m2)
  else None.

(** [v[i] = x]; [None] when [i] is out of range. *)
Definition store (i : nat) (x : Q) (v : VectorXd) : option VectorXd :=
  if (i <? length v)%nat then Some (<[i := x]> v) else None.

(** [m.transpose()] of a matrix of [c] columns. *)
Definition transpose (c : nat) (m : MatrixXd) : MatrixXd :=
  map (fun j => map (fun r => default 0 (r !! j)) m) (seq 0 c).

(** [MatrixXd::Identity(n, n)] *)
Definition Identity (n : nat) : MatrixXd :=
  map (fun i => map (fun j => if (i =? j)%nat then 1 else 0) (seq 0 n)) (seq 0 n).

(** [c * m] *)
Definition scale_matrix (c : Q) (m : MatrixXd) : MatrixXd := map (scale c) m.

(** [m.trace()] *)
Definition trace (m : MatrixXd) : Q :=
  fold_left (fun acc i => acc + default 0 (r ← m !! i; r !! i)) (seq 0 (rows m)) 0.

(** [v.sum()] *)
Definition sum (v : VectorXd) : Q := fold_left Qplus v 0.

(** [(m1.array() * m2.array()).sum()] on matrices of the same shape. *)
Definition cwise_product_sum (m1 m2 : MatrixXd) : option Q :=
  if (rows m1 =? rows m2)%nat
     && forallb (fun rr => (length rr.1 =? length rr.2)%nat) (zip m1 m2)
  then Some (sum (concat (zip_with (zip_with Qmult) m1 m2)))
  else None.

(** [m.row(d) += r] *)
Definition add_to_row (d : nat) (r : VectorXd) (m : MatrixXd) : option MatrixXd :=
  old ← m !! d;
  new ← add old r;
  Some (<[d := new]> m).

(** [v(i) += x] *)
Definition add_to_coeff (i : nat) (x : Q) (v : VectorXd) : option VectorXd :=
  old ← v !! i;
  Some (<[i := old + x]> v).

(** Coefficient-wise equality of the rationals behind two vectors. *)
Definition vec_eq (u v : VectorXd) : Prop := Forall2 Qeq u v.

Definition mat_eq (m1 m2 : MatrixXd) : Prop := Forall2 vec_eq m1 m2.

(** [u.dot(v)] *)
Definition dot (u v : VectorXd) : Q := sum (zip_with Qmult u v).


End Eigen.

(** ** Outcomes of a call *)

Inductive exn : Type :=
| runtime_error (what : string)     (* std::runtime_error and derived *)
| other_exception (what : string).  (* any other C++ exception *)

(** How a call ends: with a result, or without one. *)
Inductive result (A : Type) : Type :=
| Ret (a : A)              (* the call returned normally *)
| Thrown (e : exn)         (* the call propagated a C++ exception *)
| Aborted (why : string)   (* a failed assert, a null dereference or an
                              access out of bounds *)
| OutOfFuel.               (* the model ran out of fuel: no result yet *)

Arguments Ret {A} a.
Arguments Thrown {A} e.
Arguments Aborted {A} why.
Arguments OutOfFuel {A}.

(** The end of a call of a [void] function. *)
Definition status : Type := result unit.

Abbreviation Returned := (Ret tt).

#[global] Instance result_ret : MRet result := fun A a => Ret a.

#[global] Instance result_bind : MBind result := fun A B f r =>
  match r with
  | Ret a => f a
  | Thrown e => Thrown e
  | Aborted why => Aborted why
  | OutOfFuel => OutOfFuel
  end.

(** Modelled from the spec: [log_and_throw_error] is declared in
    polyfem/utils/Logger.hpp, which is not among the sources.  The
    specification has its callers "fail fatally", the error being "raised
    immediately with a descriptive message": the call logs the message and
    throws an exception that carries it, taken to be a
    [std::runtime_error]. *)
Definition log_and_throw_error {A : Type} (message : string) : result A :=
  Thrown (runtime_error message).

(** An Eigen assertion or a checked access, as a result. *)
Definition checked {A : Type} (why : string) (o : option A) : result A :=
  match o with
  | Some a => Ret a
  | None => Aborted why
  end.

(** ** ALSolver.cpp *)

Module ALSolver.

Definition Vec : Type := Eigen.VectorXd.

Section Interfaces.

(** The mutable state behind the collaborators: the problem, the
    minimizer and its stopping criteria, both forms and the hooks. *)
Variable W : Type.

(** [NLProblem], by its operations; the queries ([value],
    [is_step_valid], ...) read the state, the others change it. *)
Record NLProblem : Type := {
  full_size : W -> nat;
  reduced_size : W -> nat;
  full_to_reduced : W -> Vec -> Vec;
  reduced_to_full : W -> Vec -> Vec;
  value : W -> Vec -> double;
  is_step_valid : W -> Vec -> Vec -> bool;
  is_step_collision_free : W -> Vec -> Vec -> bool;
  line_search_begin : Vec -> Vec -> W -> W;
  line_search_end : W -> W;
  init : Vec -> W -> W;
  use_full_size : W -> W;
  use_reduced_size : W -> W;
  set_apply_DBC : Vec -> bool -> W -> W
}.

(** [NLSolver]: [minimize] updates its argument in place and may
    throw; [stop_criteria().iterations] is read and written. *)
Record NLSolver : Type := {
  minimize : Vec -> W -> W * Vec * option exn;
  stop_criteria_iterations : W -> Z;
  set_stop_criteria_iterations : Z -> W -> W
}.

(** [LagrangianForm] *)
Record LagrangianForm : Type := {
  lagr_enable : W -> W;
  lagr_disable : W -> W;
  update_lagrangian : Vec -> double -> W -> W
}.

(** [LagrangianPenaltyForm] *)
Record LagrangianPenaltyForm : Type := {
  pen_enable : W -> W;
  pen_disable : W -> W;
  pen_set_weight : double -> W -> W;
  compute_error : W -> Vec -> double
}.

(** The members of [ALSolver]; a null [shared_ptr] is [None].
    [post_subsolve] is the member hook called after every sub-solve. *)
Record ALSolver : Type := {
  lagr_form : option LagrangianForm;
  pen_form : option LagrangianPenaltyForm;
  initial_al_weight : double;
  scaling : double;
  max_al_weight : double;
  eta_tol : double;
  update_barrier_stiffness : Vec -> W -> W;
  post_subsolve : double -> W -> W
}.

End Interfaces.

Arguments full_size {W}.
Arguments reduced_size {W}.
Arguments full_to_reduced {W}.
Arguments reduced_to_full {W}.
Arguments value {W}.
Arguments is_step_valid {W}.
Arguments is_step_collision_free {W}.
Arguments line_search_begin {W}.
Arguments line_search_end {W}.
Arguments init {W}.
Arguments use_full_size {W}.
Arguments use_reduced_size {W}.
Arguments set_apply_DBC {W}.
Arguments minimize {W}.
Arguments stop_criteria_iterations {W}.
Arguments set_stop_criteria_iterations {W}.
Arguments lagr_enable {W}.
Arguments lagr_disable {W}.
Arguments update_lagrangian {W}.
Arguments pen_enable {W}.
Arguments pen_disable {W}.
Arguments pen_set_weight {W}.
Arguments compute_error {W}.
Arguments lagr_form {W}.
Arguments pen_form {W}.
Arguments initial_al_weight {W}.
Arguments scaling {W}.
Arguments max_al_weight {W}.
Arguments eta_tol {W}.
Arguments update_barrier_stiffness {W}.
Arguments post_subsolve {W}.

(** The message of the fatal error of [solve_reduced]. *)
Definition msg_apply_bc : string :=
  "Failed to apply boundary conditions; solve with augmented lagrangian first!".

Section Solver.

Context {W : Type}.
Variable rsqrt : Q -> Q.
Variable round : Q -> double.
Variable this : ALSolver W.
Variable nl_solver : NLSolver W.
Variable nl_problem : NLProblem W.

(** [ALSolver::set_al_weight] *)
Definition set_al_weight (x : Vec) (weight : double) (w : W) : W :=
  match pen_form this, lagr_form this with
  | Some pen, Some lagr =>
      if Double.lt (Fin 0) weight then
        let w := pen_enable pen w in
        let w := lagr_enable lagr w in
        let w := pen_set_weight pen weight w in
        let w := use_full_size nl_problem w in
        set_apply_DBC nl_problem x false w
      else
        let w := pen_disable pen w in
        let w := lagr_disable lagr w in
        let w := use_reduced_size nl_problem w in
        set_apply_DBC nl_problem x true w
  | _, _ => w
  end.

(** The condition of the loop of [solve_al] and of the check of
    [solve_reduced]: true when the step is not yet acceptable. *)
Definition step_rejected (w : W) (sol tmp_sol : Vec) : bool :=
  negb (Double.isfinite (value nl_problem w tmp_sol))
  || negb (is_step_valid nl_problem w sol tmp_sol)
  || negb (is_step_collision_free nl_problem w sol tmp_sol).

(** The local variables of [solve_al] that live across iterations;
    [al_steps] is an [int] that the code increments and never reads. *)
Record locals : Type := {
  sol : Vec;
  tmp_sol : Vec;
  al_weight : double;
  al_steps : Z
}.

(** One pass through the body of the [while] loop of [solve_al].
    [inl] is the state at the next evaluation of the loop condition;
    [inr] is an exit by an exception the [catch] does not handle or by
    a null form, with the value of [sol] at that point. *)
Definition al_body (initial_sol : Vec) (initial_error : double)
    (w : W) (l : locals) : W * (locals + Vec * status) :=
  let w := line_search_end nl_problem w in
  let w := set_al_weight (sol l) (al_weight l) w in
  let w := init nl_problem (sol l) w in
  let w := update_barrier_stiffness this (sol l) w in
  let '(w, tmp, thrown) := minimize nl_solver (sol l) w in
  match thrown with
  | Some (other_exception what) =>
      (w, inr (sol l, Thrown (other_exception what)))
  | Some (runtime_error _) | None =>
      let s := tmp in
      let w := set_al_weight s (Fin (-1)) w in
      match pen_form this with
      | None => (w, inr (s, Aborted "pen_form is null"))
      | Some pen =>
          let current_error := compute_error pen w s in
          let eta :=
            Double.sub round (Fin 1)
              (Double.sqrt rsqrt
                 (Double.div round current_error initial_error)) in
          let s := if Double.lt eta (Fin 0) then initial_sol else s in
          let tmp := full_to_reduced nl_problem w s in
          let w := line_search_begin nl_problem s tmp w in
          if Double.lt eta (eta_tol this)
             && Double.lt (al_weight l) (max_al_weight this)
          then
            let al_weight' := Double.mul round (al_weight l) (scaling this) in
            let w := post_subsolve this al_weight' w in
            (w, inl {| sol := s; tmp_sol := tmp;
                       al_weight := al_weight';
                       al_steps := (al_steps l + 1)%Z |})
          else
            match lagr_form this with
            | None => (w, inr (s, Aborted "lagr_form is null"))
            | Some lagr =>
                let w := update_lagrangian lagr s (al_weight l) w in
                let w := post_subsolve this (al_weight l) w in
                (w, inl {| sol := s; tmp_sol := tmp;
                           al_weight := al_weight l;
                           al_steps := (al_steps l + 1)%Z |})
            end
      end
  end.

(** The value of [eta] in the pass through the body that starts in the
    state [(w, l)], when the pass gets as far as computing it. *)
Definition al_eta (initial_error : double) (w : W) (l : locals)
    : option double :=
  let w := line_search_end nl_problem w in
  let w := set_al_weight (sol l) (al_weight l) w in
  let w := init nl_problem (sol l) w in
  let w := update_barrier_stiffness this (sol l) w in
  let '(w, tmp, thrown) := minimize nl_solver (sol l) w in
  match thrown with
  | Some (other_exception _) => None
  | Some (runtime_error _) | None =>
      let s := tmp in
      let w := set_al_weight s (Fin (-1)) w in
      match pen_form this with
      | None => None
      | Some pen =>
          let current_error := compute_error pen w s in
          Some (Double.sub round (Fin 1)
                  (Double.sqrt rsqrt
                     (Double.div round current_error initial_error)))
      end
  end.

(** The [while] loop of [solve_al], for at most [fuel] iterations. *)
Fixpoint al_loop (fuel : nat) (initial_sol : Vec) (initial_error : double)
    (w : W) (l : locals) : W * locals * status :=
  if step_rejected w (sol l) (tmp_sol l) then
    match fuel with
    | O => (w, l, OutOfFuel)
    | S fuel' =>
        match al_body initial_sol initial_error w l with
        | (w', inl l') => al_loop fuel' initial_sol initial_error w' l'
        | (w', inr (s, st)) =>
            (w', {| sol := s; tmp_sol := tmp_sol l;
                    al_weight := al_weight l; al_steps := al_steps l |}, st)
        end
    end
  else (w, l, Returned).

(** The state in which [solve_al] first evaluates its loop condition,
    or the reason why it does not get there. *)
Definition al_enter (w : W) (sol0 : Vec)
    : (W * locals * double) + string :=
  if negb (length sol0 =? full_size nl_problem w)%nat then
    inr "assert(sol.size() == nl_problem.full_size())"%string
  else
    let tmp := full_to_reduced nl_problem w sol0 in
    if negb (length tmp =? reduced_size nl_problem w)%nat then
      inr "assert(tmp_sol.size() == nl_problem.reduced_size())"%string
    else
      match pen_form this with
      | None => inr "pen_form is null"%string
      | Some pen =>
          let initial_error := compute_error pen w sol0 in
          let w := line_search_begin nl_problem sol0 tmp w in
          inl (w, {| sol := sol0; tmp_sol := tmp;
                     al_weight := initial_al_weight this;
                     al_steps := 0 |}, initial_error)
      end.

(** [ALSolver::solve_al]: the world and the in/out argument [sol] after
    the call, and how the call ended. *)
Definition solve_al (fuel : nat) (w : W) (sol0 : Vec) : W * Vec * status :=
  let iters := stop_criteria_iterations nl_solver w in
  match al_enter w sol0 with
  | inr why => (w, sol0, Aborted why)
  | inl (w1, l0, initial_error) =>
      match al_loop fuel sol0 initial_error w1 l0 with
      | (w2, l, Returned) =>
          let w3 := line_search_end nl_problem w2 in
          (set_stop_criteria_iterations nl_solver iters w3, sol l, Returned)
      | (w2, l, st) => (w2, sol l, st)
      end
  end.

(** [ALSolver::solve_reduced] *)
Definition solve_reduced (w : W) (sol0 : Vec) : W * Vec * status :=
  if negb (length sol0 =? full_size nl_problem w)%nat then
    (w, sol0, Aborted "assert(sol.size() == nl_problem.full_size())")
  else
    let tmp := full_to_reduced nl_problem w sol0 in
    let w := line_search_begin nl_problem sol0 tmp w in
    if step_rejected w sol0 tmp then
      (w, sol0, log_and_throw_error msg_apply_bc)
    else
      let w := init nl_problem sol0 w in
      let w := update_barrier_stiffness this sol0 w in
      let '(w, tmp, thrown) := minimize nl_solver tmp w in
      match thrown with
      | Some (runtime_error what) =>
          (w, reduced_to_full nl_problem w tmp, Thrown (runtime_error what))
      | Some (other_exception what) =>
          (w, sol0, Thrown (other_exception what))
      | None =>
          let s := reduced_to_full nl_problem w tmp in
          (post_subsolve this (Fin 0) w, s, Returned)
      end.

(** The successive states of the loop of [solve_al]: one step is one
    pass through the body, taken when the loop condition holds. *)
Inductive al_step (initial_sol : Vec) (initial_error : double)
    : W * locals -> W * locals -> Prop :=
| al_step_body w l w' l' :
    step_rejected w (sol l) (tmp_sol l) = true ->
    al_body initial_sol initial_error w l = (w', inl l') ->
    al_step initial_sol initial_error (w, l) (w', l').

(** [al_run w sol0 s]: a run of [solve_al] started on [sol0] in the
    world [w] evaluates its loop condition in the state [s]. *)
Definition al_run (w : W) (sol0 : Vec) (s : W * locals) : Prop :=
  exists w1 l0 initial_error,
    al_enter w sol0 = inl (w1, l0, initial_error)
    /\ rtc (al_step sol0 initial_error) (w1, l0) s.

(** [al_next w sol0 s s']: such a run passes from the state [s] to
    the state [s'] by one outer iteration. *)
Definition al_next (w : W) (sol0 : Vec) (s s' : W * locals) : Prop :=
  exists w1 l0 initial_error,
    al_enter w sol0 = inl (w1, l0, initial_error)
    /\ rtc (al_step sol0 initial_error) (w1, l0) s
    /\ al_step sol0 initial_error s s'.

(** The weight starts at [initial_al_weight], never decreases from one
    outer iteration to the next and never exceeds [max_al_weight]. *)
Definition al_weight_capped (w : W) (sol0 : Vec) : Prop :=
  (forall w1 l0 initial_error,
      al_enter w sol0 = inl (w1, l0, initial_error) ->
      al_weight l0 = initial_al_weight this)
  /\ (forall s s', al_next w sol0 s s' ->
        Double.le (al_weight s.2) (al_weight s'.2) = true)
  /\ (forall s, al_run w sol0 s ->
        Double.le (al_weight s.2) (max_al_weight this) = true).

(** [same_view w w']: the problem answers its queries alike in the worlds
    [w] and [w']. *)
Definition same_view (w w' : W) : Prop :=
  full_size nl_problem w = full_size nl_problem w'
  /\ (forall x, full_to_reduced nl_problem w x = full_to_reduced nl_problem w' x)
  /\ (forall x, value nl_problem w x = value nl_problem w' x)
  /\ (forall x y, is_step_valid nl_problem w x y = is_step_valid nl_problem w' x y)
  /\ (forall x y,
        is_step_collision_free nl_problem w x y
        = is_step_collision_free nl_problem w' x y).

End Solver.

End ALSolver.

(** ** Objective.cpp *)

Module Objective.

Import Eigen.

(** *** Parameters and states, as far as the objectives look at them *)

(** Modelled from the spec: the class [Parameter] is declared in a header
    that is not among the sources ([Parameter] is a reserved word here,
    hence the name of the specification's data model).  A parameter has an
    identity, by which the code tells parameters apart ([&param == ...]),
    and the size [full_dim] of its vector. *)
Record DesignParameter : Type := {
  address : positive;
  full_dim : nat
}.

(** [&param == p.get()] for a [shared_ptr] [p] that may be null. *)
Definition is_param (param : DesignParameter) (p : option positive) : bool :=
  match p with
  | Some a => Pos.eqb (address param) a
  | None => false
  end.

(** A [State], as far as [SumObjective] uses it: [state.ndof()]. *)
Record State : Type := {
  ndof : nat
}.

(** Modelled from the spec: the class [Objective] is declared in
    Objective.hpp, which is not among the sources.  Every objective offers
    [value()], [compute_adjoint_rhs(state)] and
    [compute_partial_gradient(parameter)]; an object is given by what the
    three return on the cached state of the simulation. *)
Record Objective : Type := {
  value : Q;
  compute_adjoint_rhs : State -> MatrixXd;
  compute_partial_gradient : DesignParameter -> VectorXd
}.

(** *** SumObjective *)

Module SumObjective.

(** [SumObjective::value] *)
Definition value (objs : list Objective) : Q :=
  fold_left (fun val obj => val + Objective.value obj) objs 0.

(** [SumObjective::compute_partial_gradient] *)
Definition compute_partial_gradient (objs : list Objective)
    (param : DesignParameter) : option VectorXd :=
  foldl (fun grad obj =>
           g ← grad; add g (Objective.compute_partial_gradient obj param))
        (Some (Zero (full_dim param))) objs.

(** [SumObjective::compute_adjoint_rhs]: the accumulator [rhs] is an
    [Eigen::VectorXd] of [state.ndof()] rows, returned as a matrix. *)
Definition compute_adjoint_rhs (objs : list Objective)
    (state : State) : option MatrixXd :=
  as_matrix <$>
    foldl (fun rhs obj =>
             r ← rhs; add_assign_matrix r (Objective.compute_adjoint_rhs obj state))
          (Some (Zero (ndof state))) objs.

(** The sum of the sub-objectives' values, as the specification words it. *)
Definition sum_of_values (objs : list Objective) : Q :=
  foldr (fun obj acc => Objective.value obj + acc) 0 objs.

(** The coefficient-wise sum of the sub-objectives' gradients. *)
Definition sum_of_gradients (objs : list Objective) (param : DesignParameter)
    : option VectorXd :=
  foldr (fun obj acc =>
           a ← acc; add (Objective.compute_partial_gradient obj param) a)
        (Some (Zero (full_dim param))) objs.

(** The coefficient-wise sum of the sub-objectives' adjoint right-hand
    sides, matrices of [ndof] rows and [steps] columns. *)
Definition sum_of_adjoint_rhs (steps : nat) (objs : list Objective)
    (state : State) : option MatrixXd :=
  foldr (fun obj acc =>
           a ← acc; add_matrix (Objective.compute_adjoint_rhs obj state) a)
        (Some (ZeroMatrix (ndof state) steps)) objs.

End SumObjective.

(** *** VolumePaneltyObjective *)

Module VolumePaneltyObjective.

(** The members: the soft bound [bound[0], bound[1]] and the wrapped
    [VolumeObjective], of which the value and the gradient are used. *)
Record t : Type := {
  bound : Q * Q;
  obj : Objective
}.

(** [VolumePaneltyObjective::value] *)
Definition value (this : t) : Q :=
  let vol := Objective.value (obj this) in
  if Qltb vol (bound this).1 then
    (vol - (bound this).1) ^ 2
  else if Qltb (bound this).2 vol then
    (vol - (bound this).2) ^ 2
  else 0.

(** [VolumePaneltyObjective::compute_partial_gradient] *)
Definition compute_partial_gradient (this : t) (param : DesignParameter) : VectorXd :=
  let vol := Objective.value (obj this) in
  let grad := Objective.compute_partial_gradient (obj this) param in
  if Qltb vol (bound this).1 then
    scale (2 * (vol - (bound this).1)) grad
  else if Qltb (bound this).2 vol then
    scale (2 * (vol - (bound this).2)) grad
  else Zero (length grad).

(** The penalty object over a volume [vol] with gradient [dvol]. *)
Definition make (lo hi vol : Q) (dvol : VectorXd) : t :=
  {| bound := (lo, hi);
     obj := {| Objective.value := vol;
               Objective.compute_adjoint_rhs := fun state => as_matrix (Zero (ndof state));
               Objective.compute_partial_gradient := fun _ => dvol |} |}.

End VolumePaneltyObjective.

(** *** PositionObjective *)

Module PositionObjective.

(** [m.col(d)]; [None] is the assertion on the index of the column (a
    matrix without rows has every column, empty). *)
Definition col (m : MatrixXd) (d : nat) : option VectorXd :=
  mapM (fun r : VectorXd => r !! d) m.

(** The closure given to [set_j] by
    [PositionObjective::get_integral_functional]:
    [val = u.col(dim_) + pts.col(dim_)]. *)
Definition j (dim_ : nat) (pts u : MatrixXd) : option VectorXd :=
  a ← col u dim_; b ← col pts dim_; add a b.

(** [val.setZero(r, c); val.col(dim_).setOnes()] *)
Definition unit_column (dim_ r c : nat) : option MatrixXd :=
  if (dim_ <? c)%nat then Some (repeat (<[dim_ := 1]> (Zero c)) r) else None.

(** The closure given to [set_dj_du]. *)
Definition dj_du (dim_ : nat) (pts u : MatrixXd) : option MatrixXd :=
  unit_column dim_ (rows u) (cols u).

End PositionObjective.

(** *** BarycenterTargetObjective *)

Module BarycenterTargetObjective.

(** The members.  [objv] is the value of the [VolumeObjective]; [objp d t]
    is the value of the [PositionObjective] of axis [d] once its time step
    is set to [t] (all of them follow [set_time_step]). *)
Record t : Type := {
  dim_ : nat;
  target_ : MatrixXd;
  time_step_ : nat;
  objv : Q;
  objp : nat -> nat -> Q
}.

(** [BarycenterTargetObjective::get_target]; [None] is a failed
    assertion: [assert(target_.cols() == dim_)], a row out of range, or
    the size check of the conversion of the matrix [target_] into the
    vector that is returned.  A target with rows for the time steps gives
    the row of the time step, which is a vector; a target of at most one
    row is returned as the matrix it is, and Eigen converts a matrix into
    a [VectorXd] only when it has one column. *)
Definition get_target (this : t) : option VectorXd :=
  if negb (cols (target_ this) =? dim_ this)%nat then None
  else if (1 <? rows (target_ this))%nat then
    target_ this !! time_step_ this
  else if (cols (target_ this) =? 1)%nat then Some (concat (target_ this))
  else None.

(** [BarycenterTargetObjective::get_barycenter]; [None] is a quotient by
    a zero volume. *)
Definition get_barycenter (this : t) : option VectorXd :=
  let volume := objv this in
  mapM (fun d => quotient (objp this d (time_step_ this)) volume)
       (seq 0 (dim_ this)).

(** [BarycenterTargetObjective::value] *)
Definition value (this : t) : option Q :=
  center ← get_barycenter this;
  target ← get_target this;
  squaredNorm <$> sub center target.

(** The value in the specification's words: the squared Euclidean norm of
    centroid minus target, the centroid's coordinate [d] being the position
    integral of axis [d] over the volume. *)
Definition centroid (this : t) (d : nat) : Q :=
  objp this d (time_step_ this) / objv this.

Definition squared_distance (this : t) (target : nat -> Q) : Q :=
  foldr (fun d acc => (centroid this d - target d) ^ 2 + acc) 0
        (seq 0 (dim_ this)).

(** The stored target point: the row of the time step when there is one
    row per time step, the only row otherwise. *)
Definition stored_target (this : t) (d : nat) : Q :=
  let row := if (1 <? rows (target_ this))%nat then time_step_ this else O in
  default 0 (r ← target_ this !! row; r !! d).

(** [BarycenterTargetObjective::compute_partial_gradient]:
    [objv_gradient] is [objv->compute_partial_gradient(param)] and
    [objp_gradient d] is [objp[d]->compute_partial_gradient(param)], at the
    time step set. *)
Definition compute_partial_gradient (this : t)
    (objv_gradient : VectorXd) (objp_gradient : nat -> VectorXd)
    (param : DesignParameter) : option VectorXd :=
  let term := Zero (full_dim param) in
  target ← get_target this;
  let volume := objv this in
  center ← mapM (fun d => quotient (objp this d (time_step_ this)) volume)
                (seq 0 (dim_ this));
  coeffv ← foldl (fun coeffv d =>
                    coeffv ← coeffv; center_d ← center !! d; target_d ← target !! d;
                    slope ← quotient (- center_d) volume;
                    Some (coeffv + 2 * (center_d - target_d) * slope))
                 (Some 0) (seq 0 (dim_ this));
  term ← add term (scale coeffv objv_gradient);
  foldl (fun term d =>
           term ← term; center_d ← center !! d; target_d ← target !! d;
           factor ← quotient 2 volume;
           add term (scale (factor * (center_d - target_d)) (objp_gradient d)))
        (Some term) (seq 0 (dim_ this)).

(** [BarycenterTargetObjective::compute_adjoint_rhs_step]: [objp_rhs d] is
    [objp[d]->compute_adjoint_rhs_step(state)]. *)
Definition compute_adjoint_rhs_step (this : t)
    (objp_rhs : nat -> VectorXd) (state : State) : option VectorXd :=
  let term := Zero (ndof state) in
  target ← get_target this;
  let volume := objv this in
  center ← mapM (fun d => quotient (objp this d (time_step_ this)) volume)
                (seq 0 (dim_ this));
  foldl (fun term d =>
           term ← term; center_d ← center !! d; target_d ← target !! d;
           factor ← quotient 2 volume;
           add term (scale (factor * (center_d - target_d)) (objp_rhs d)))
        (Some term) (seq 0 (dim_ this)).

End BarycenterTargetObjective.

(** *** TransientObjective *)

Module TransientObjective.

Local Open Scope string_scope.

(** [isspace] in the C locale. *)
Definition isspace (c : ascii) : bool :=
  let n := nat_of_ascii c in
  (n =? 32)%nat || ((9 <=? n)%nat && (n <=? 13)%nat).

Fixpoint skip_spaces (s : string) : string :=
  match s with
  | String c r => if isspace c then skip_spaces r else s
  | EmptyString => s
  end.

Definition digit (c : ascii) : option Z :=
  let n := nat_of_ascii c in
  if (48 <=? n)%nat && (n <=? 57)%nat then Some (Z.of_nat n - 48)%Z else None.

(** The value of the longest prefix of decimal digits, [acc] being the
    value of the digits read so far, if any. *)
Fixpoint read_digits (s : string) (acc : option Z) : option Z :=
  match s with
  | String c r =>
      match digit c with
      | Some d => read_digits r (Some (10 * default 0%Z acc + d)%Z)
      | None => acc
      end
  | EmptyString => acc
  end.

(** [std::stoi(s)]: leading white space, an optional sign, decimal
    digits; [None] is [std::invalid_argument] (no digit) or
    [std::out_of_range] (not an [int]). *)
Definition stoi (s : string) : option Z :=
  let s := skip_spaces s in
  v ← match s with
      | String "-" r => Z.opp <$> read_digits r None
      | String "+" r => read_digits r None
      | _ => read_digits s None
      end;
  if ((-2147483648 <=? v) && (v <=? 2147483647))%Z then Some v else None.

(** [s.substr(pos)]; [None] is [std::out_of_range]. *)
Definition substr (pos : nat) (s : string) : option string :=
  if (pos <=? String.length s)%nat
  then Some (substring pos (String.length s - pos) s)
  else None.

(** [s.find(pat) != std::string::npos] *)
Definition contains (pat s : string) : bool :=
  match index 0 pat s with
  | Some _ => true
  | None => false
  end.

(** The loop of the Simpson rule over [i = from, ..., from + count - 1]. *)
Fixpoint simpson_interior (dt_ : Q) (from count : nat) (weights : VectorXd)
    : option VectorXd :=
  match count with
  | O => Some weights
  | S count' =>
      weights ← store from
        (if Nat.odd from then dt_ * 4 / 3 else dt_ * 2 / 4) weights;
      simpson_interior dt_ (S from) count' weights
  end.

(** [TransientObjective::get_transient_quadrature_weights].  [None] stands
    for a failed assertion, an exception of the standard library or an
    access out of the bounds of [weights]. *)
Definition get_transient_quadrature_weights
    (time_steps_ : Z) (dt_ : Q) (transient_integral_type_ : string)
    : option (list Q) :=
  if (time_steps_ + 1 <? 0)%Z then None else
  let n := Z.to_nat (time_steps_ + 1) in
  let weights := repeat dt_ n in
  if String.eqb transient_integral_type_ "uniform" then
    store 0 0 weights
  else if String.eqb transient_integral_type_ "trapezoidal" then
    weights ← store 0 (dt_ / 2) weights;
    store (length weights - 1) (dt_ / 2) weights
  else if String.eqb transient_integral_type_ "simpson" then
    weights ← store 0 (dt_ / 3) weights;
    weights ← store (length weights - 1) (dt_ / 3) weights;
    simpson_interior dt_ 1 (length weights - 1 - 1) weights
  else if String.eqb transient_integral_type_ "final" then
    let weights := repeat 0 n in
    if (time_steps_ <? 0)%Z then None
    else store (Z.to_nat time_steps_) 1 weights
  else if contains "step_" transient_integral_type_ then
    let weights := repeat 0 n in
    tail ← substr 5 transient_integral_type_;
    step ← stoi tail;
    if ((0 <? step) && (step <? Z.of_nat (length weights)))%Z
    then store (Z.to_nat step) 1 weights
    else None
  else None.

(** [TransientObjective::compute_adjoint_rhs]: the matrix of
    [state.ndof()] rows and [time_steps_ + 1] columns whose column [i] is
    the weight [i] times [obj_->compute_adjoint_rhs_step(state)] at the
    time step [i].  [None] also stands for a column that has not
    [state.ndof()] rows. *)
Definition compute_adjoint_rhs
    (time_steps_ : Z) (dt_ : Q) (transient_integral_type_ : string)
    (compute_adjoint_rhs_step : nat -> State -> VectorXd) (state : State)
    : option MatrixXd :=
  weights ← get_transient_quadrature_weights
              time_steps_ dt_ transient_integral_type_;
  columns ← mapM (fun i =>
                    weight ← weights !! i;
                    let column := scale weight (compute_adjoint_rhs_step i state) in
                    if (length column =? ndof state)%nat then Some column else None)
                 (seq 0 (Z.to_nat (time_steps_ + 1)));
  Some (map (fun r => map (fun column => default 0 (column !! r)) columns)
            (seq 0 (ndof state))).

(** [TransientObjective::value]: [obj_value i] is [obj_->value()] once
    [obj_->set_time_step(i)] is done. *)
Definition value
    (time_steps_ : Z) (dt_ : Q) (transient_integral_type_ : string)
    (obj_value : nat -> Q) : option Q :=
  weights ← get_transient_quadrature_weights
              time_steps_ dt_ transient_integral_type_;
  foldl (fun value i =>
           value ← value;
           weight ← weights !! i;
           Some (value + weight * obj_value i))
        (Some 0) (seq 0 (Z.to_nat (time_steps_ + 1))).

(** [TransientObjective::compute_partial_gradient]: [obj_gradient i] is
    [obj_->compute_partial_gradient(param)] at the time step [i]. *)
Definition compute_partial_gradient
    (time_steps_ : Z) (dt_ : Q) (transient_integral_type_ : string)
    (obj_gradient : nat -> DesignParameter -> VectorXd) (param : DesignParameter)
    : option VectorXd :=
  weights ← get_transient_quadrature_weights
              time_steps_ dt_ transient_integral_type_;
  foldl (fun term i =>
           term ← term;
           weight ← weights !! i;
           add term (scale weight (obj_gradient i param)))
        (Some (Zero (full_dim param))) (seq 0 (Z.to_nat (time_steps_ + 1))).


End TransientObjective.

(** *** ComplianceObjective *)

Module ComplianceObjective.

Local Open Scope string_scope.

(** One entry of [v.global]. *)
Record Local2Global : Type := {
  index : nat;
  val : Q
}.

(** One element of [vals.basis_values]. *)
Record AssemblyValues : Type := {
  global : list Local2Global;
  grad_t_m : MatrixXd
}.

(** What [state_.ass_vals_cache.compute] yields for an element:
    [vals.basis_values], [vals.quadrature.weights] and [vals.det]. *)
Record ElementAssemblyValues : Type := {
  basis_values : list AssemblyValues;
  quadrature_weights : VectorXd;
  det : VectorXd
}.

(** The members and what the method reads through [state_].  The three
    parameters are held by [shared_ptr]: an address, or [None] when null.
    [lambda_mu e q] are the Lame parameters at the point [q] of the
    element [e]; [elements] has one entry per element of [state_.bases]. *)
Record t : Type := {
  elastic_param_ : option positive;
  shape_param_ : option positive;
  topo_param_ : option positive;
  time_step_ : nat;
  formulation : string;
  dim : nat;
  diff_cached : list VectorXd;
  density_mat_ : VectorXd;
  density_power_ : Q;
  lambda_mu : nat -> nat -> Q * Q;
  elements : list ElementAssemblyValues
}.

Section Gradient.

(** [pow] of the C library. *)
Variable pow : Q -> Q -> Q.

Variable this : t.

(** The displacement gradient at the quadrature point [q]. *)
Definition grad_u_at (vals : ElementAssemblyValues) (q : nat) : result MatrixXd :=
  u ← checked "diff_cached[time_step_]" (diff_cached this !! time_step_ this);
  foldl (fun acc v =>
    foldl (fun acc d =>
      grad_u_q ← acc;
      coeff ← foldl (fun c g =>
                 c ← c;
                 x ← checked "u(g.index * dim + d)" (u !! (index g * dim this + d)%nat);
                 Ret (c + x * val g))
               (Ret 0) (global v);
      row ← checked "v.grad_t_m.row(q)" (grad_t_m v !! q);
      checked "grad_u_q.row(d) += ..." (add_to_row d (scale coeff row) grad_u_q))
    acc (seq 0 (dim this)))
  (Ret (ZeroMatrix (dim this) (dim this))) (basis_values vals).

(** The stress of the formulation; under any other formulation the code
    logs an error and leaves [stress] empty. *)
Definition stress_of (lambda mu : Q) (grad_u_q : MatrixXd) : result MatrixXd :=
  if String.eqb (formulation this) "LinearElasticity" then
    sym ← checked "grad_u_q + grad_u_q.transpose()"
            (add_matrix grad_u_q (transpose (cols grad_u_q) grad_u_q));
    checked "mu * (...) + lambda * ... * Identity"
      (add_matrix (scale_matrix mu sym)
         (scale_matrix (lambda * trace grad_u_q)
            (Identity (rows grad_u_q))))
  else Ret [].

(** The body of the loop over the quadrature points of the element [e]. *)
Definition add_point (e : nat) (vals : ElementAssemblyValues) (q : nat)
    (term : VectorXd) : result VectorXd :=
  let '(lambda, mu) := lambda_mu this e q in
  grad_u_q ← grad_u_at vals q;
  stress ← stress_of lambda mu grad_u_q;
  energy ← checked "stress.array() * grad_u_q.array()"
             (cwise_product_sum stress grad_u_q);
  rho ← checked "density_mat(e)" (density_mat_ this !! e);
  w ← checked "quadrature.weights(q)" (quadrature_weights vals !! q);
  j ← checked "vals.det(q)" (det vals !! q);
  checked "term(e)"
    (add_to_coeff e
       (density_power_ this * pow rho (density_power_ this - 1) * energy * w * j)
       term).

(** The loop over the elements of the topology branch. *)
Definition topology_term (term : VectorXd) : result VectorXd :=
  foldl (fun acc ev =>
    let '(e, vals) := ev in
    foldl (fun acc q => term ← acc; add_point e vals q term)
          acc (seq 0 (length (quadrature_weights vals))))
  (Ret term) (imap (fun e vals => (e, vals)) (elements this)).

(** [ComplianceObjective::compute_partial_gradient]; [fuel] bounds the
    depth of the calls. *)
Fixpoint compute_partial_gradient (fuel : nat) (param : DesignParameter)
    : result VectorXd :=
  match fuel with
  | O => OutOfFuel
  | S fuel' =>
      let term := Zero (full_dim param) in
      if is_param param (elastic_param_ this) then
        log_and_throw_error "Not implemented!"
      else if is_param param (shape_param_ this) then
        term ← compute_partial_gradient fuel' param;
        Ret term
      else if is_param param (topo_param_ this) then
        topology_term term
      else Ret term
  end.

End Gradient.

End ComplianceObjective.

(** *** StressObjective: the sibling of the method above *)

Module StressObjective.

Local Open Scope string_scope.

(** The members [compute_partial_gradient] reads; [integral_value] is
    [SpatialIntegralObjective::value()] and [integral_gradient] is
    [SpatialIntegralObjective::compute_partial_gradient]. *)
Record t : Type := {
  elastic_param_ : option positive;
  shape_param_ : option positive;
  in_power_ : Q;
  out_sqrt_ : bool;
  integral_value : Q;
  integral_gradient : DesignParameter -> VectorXd
}.

(** [StressObjective::compute_partial_gradient]: the shape branch calls
    the method of the base class by its qualified name. *)
Definition compute_partial_gradient (pow : Q -> Q -> Q) (this : t)
    (param : DesignParameter) : result VectorXd :=
  let term := Zero (full_dim param) in
  term ←
    (if is_param param (elastic_param_ this) then
       log_and_throw_error "Not implemented!"
     else if is_param param (shape_param_ this) then
       Ret (integral_gradient this param)
     else Ret term);
  if out_sqrt_ this then
    let val := integral_value this in
    Ret (scale (pow val (1 / in_power_ this - 1) / in_power_ this) term)
  else Ret term.

End StressObjective.

(** *** TargetObjective *)

Module TargetObjective.

(** A line of the log. *)
Inductive log_entry : Type :=
| log_error (message : string)
| log_trace (message : string) (argument : Z).

Definition msg_mismatch : string :=
  "Number of interested elements in the reference and optimization examples do not match!"%string.

Definition msg_matching : string := "Found {} matching elements."%string.

(** What [set_reference] reads of a simulation: [bases.size()] and
    [mesh->get_body_id]. *)
Record Mesh : Type := {
  n_bases : nat;
  get_body_id : Z -> Z
}.

(** The first two loops of [set_reference]: the selected elements of a
    simulation by body id, in increasing order, and their count. *)
Definition interested_elements (mesh : Mesh) (reference_cached_body_ids : gset Z)
    : gmap Z (list Z) * Z :=
  foldl (fun acc e =>
    let '(body_id_to_e, count) := acc in
    let body_id := get_body_id mesh e in
    if (0 <? size reference_cached_body_ids)%nat
       && bool_decide (body_id ∉ reference_cached_body_ids)
    then acc
    else
      (match body_id_to_e !! body_id with
       | Some es => <[body_id := es ++ [e]]> body_id_to_e
       | None => <[body_id := [e]]> body_id_to_e
       end, (count + 1)%Z))
  (∅, 0%Z) (seqZ 0 (Z.of_nat (n_bases mesh))).

(** The inner loop of the last loop of [set_reference], over the elements
    [es] of one body id, starting at the position [i]. *)
Fixpoint pair_elements (es ref_es : list Z) (i : nat) (e_to_ref_e_ : gmap Z Z)
    : option (gmap Z Z) :=
  match es with
  | [] => Some e_to_ref_e_
  | e :: es' =>
      e_ref ← ref_es !! i;
      pair_elements es' ref_es (S i) (<[e := e_ref]> e_to_ref_e_)
  end.

(** [TargetObjective::set_reference]: the new value of [e_to_ref_e_] and
    the lines logged.  [None] is a read past the end of a vector of
    reference elements.  The method has no [throw]. *)
Definition set_reference (state_ target_state : Mesh)
    (reference_cached_body_ids : gset Z) (e_to_ref_e_ : gmap Z Z)
    : option (gmap Z Z * list log_entry) :=
  let '(ref_interested_body_id_to_e, ref_count) :=
    interested_elements target_state reference_cached_body_ids in
  let '(interested_body_id_to_e, count) :=
    interested_elements state_ reference_cached_body_ids in
  let log :=
    if negb (count =? ref_count)%Z
    then [log_error msg_mismatch]
    else [log_trace msg_matching count] in
  m ← foldl (fun acc body_id =>
         m ← acc;
         pair_elements (default [] (interested_body_id_to_e !! body_id))
                       (default [] (ref_interested_body_id_to_e !! body_id))
                       0 m)
       (Some e_to_ref_e_)
       (merge_sort Z.le (elements (dom interested_body_id_to_e)));
  Some (m, log).

(** The test of the first two loops that [continue]s past an element of
    the body [body_id]. *)
Definition skipped (reference_cached_body_ids : gset Z) (body_id : Z) : bool :=
  (0 <? size reference_cached_body_ids)%nat
  && bool_decide (body_id ∉ reference_cached_body_ids).

(** The body of the first two loops, as [interested_elements] folds it. *)
Definition collect (mesh : Mesh) (reference_cached_body_ids : gset Z)
    (acc : gmap Z (list Z) * Z) (e : Z) : gmap Z (list Z) * Z :=
  let '(body_id_to_e, count) := acc in
  let body_id := get_body_id mesh e in
  if (0 <? size reference_cached_body_ids)%nat
     && bool_decide (body_id ∉ reference_cached_body_ids)
  then acc
  else
    (match body_id_to_e !! body_id with
     | Some es => <[body_id := es ++ [e]]> body_id_to_e
     | None => <[body_id := [e]]> body_id_to_e
     end, (count + 1)%Z).

(** The body of the last loop, over the body ids, [own] and [ref] giving
    the elements of a body id in the simulation and in the reference. *)
Definition pair_bodies (own ref : Z -> list Z)
    (acc : option (gmap Z Z)) (body_id : Z) : option (gmap Z Z) :=
  m ← acc; pair_elements (own body_id) (ref body_id) 0 m.

(** An element the loops select: an index of [bases] whose body is not
    skipped. *)
Definition interested (mesh : Mesh) (reference_cached_body_ids : gset Z)
    (e : Z) : bool :=
  (0 <=? e)%Z && (e <? Z.of_nat (n_bases mesh))%Z
  && negb (skipped reference_cached_body_ids (get_body_id mesh e)).

(** The selected elements of the body [body_id], in increasing order. *)
Definition elements_of_body (mesh : Mesh) (reference_cached_body_ids : gset Z)
    (body_id : Z) : list Z :=
  filter (fun e => get_body_id mesh e = body_id
                   /\ skipped reference_cached_body_ids body_id = false)
         (seqZ 0 (Z.of_nat (n_bases mesh))).

(** What the integrand reads of the reference simulation. *)
Section Integrand.

(** A geometry basis of the reference simulation. *)
Variable ElementBases : Type.

(** [gbase.eval_geom_mapping(local_pts, pts_ref)] *)
Variable eval_geom_mapping : ElementBases -> MatrixXd -> MatrixXd.

(** [io::Evaluator::interpolate_at_local_vals] on the reference
    simulation: the element, the local points and the solution give the
    field and its gradient. *)
Variable interpolate_at_local_vals :
  Z -> MatrixXd -> VectorXd -> MatrixXd * MatrixXd.

(** [target_state_]: its geometry bases, whether its problem is time
    dependent, and its cached solutions. *)
Record TargetState : Type := {
  geom_bases : list ElementBases;
  is_time_dependent : bool;
  diff_cached : list VectorXd
}.

Variable e_to_ref_e_ : gmap Z Z.
Variable target_state_ : TargetState.

(** The reference element of the element [e]. *)
Definition e_ref_of (e : Z) : Z :=
  match e_to_ref_e_ !! e with
  | Some e_ref => e_ref
  | None => e
  end.

(** [v[i]] for an [int] index. *)
Definition at_int {A : Type} (v : list A) (i : Z) : option A :=
  if (i <? 0)%Z then None else v !! Z.to_nat i.

(** What both closures compute before their loops, from the reference
    element on: the reference points and the reference field. *)
Definition reference_at (e_ref : Z) (local_pts : MatrixXd) (step : Z)
    : option (MatrixXd * MatrixXd) :=
  gbase_ref ← at_int (geom_bases target_state_) e_ref;
  let pts_ref := eval_geom_mapping gbase_ref local_pts in
  sol_ref ← (if is_time_dependent target_state_
             then at_int (diff_cached target_state_) step
             else diff_cached target_state_ !! O);
  let '(u_ref, grad_u_ref) := interpolate_at_local_vals e_ref local_pts sol_ref in
  Some (pts_ref, u_ref).

(** The loop of [j_func] over the rows of [u]. *)
Definition j_rows (pts_ref u_ref pts u : MatrixXd) : option VectorXd :=
  mapM (fun q =>
          u_ref_q ← u_ref !! q; pts_ref_q ← pts_ref !! q;
          u_q ← u !! q; pts_q ← pts !! q;
          a ← add u_ref_q pts_ref_q;
          b ← add u_q pts_q;
          squaredNorm <$> sub a b)
       (seq 0 (rows u)).

(** The loop of [djdu_func] over the rows of [u]. *)
Definition djdu_rows (pts_ref u_ref pts u : MatrixXd) : option MatrixXd :=
  mapM (fun q =>
          u_ref_q ← u_ref !! q; pts_ref_q ← pts_ref !! q;
          u_q ← u !! q; pts_q ← pts !! q;
          a ← add u_q pts_q;
          b ← add u_ref_q pts_ref_q;
          x ← sub a b;
          if (length x =? cols u)%nat then Some (scale 2 x) else None)
       (seq 0 (rows u)).

(** The closure [j_func] of [TargetObjective::get_integral_functional];
    [elem] and [step] are [params["elem"]] and [params["step"]]. *)
Definition j_func (local_pts pts u : MatrixXd) (elem step : Z)
    : option VectorXd :=
  let e := elem in
  let e_ref := e_ref_of e in
  '(pts_ref, u_ref) ← reference_at e_ref local_pts step;
  j_rows pts_ref u_ref pts u.

(** The closure [djdu_func]. *)
Definition djdu_func (local_pts pts u : MatrixXd) (elem step : Z)
    : option MatrixXd :=
  let e := elem in
  let e_ref := e_ref_of e in
  '(pts_ref, u_ref) ← reference_at e_ref local_pts step;
  djdu_rows pts_ref u_ref pts u.

End Integrand.

(** The object, as far as [set_reference] writes it and
    [get_integral_functional] reads it. *)
Section Members.

Variable ElementBases : Type.
Variable eval_geom_mapping : ElementBases -> MatrixXd -> MatrixXd.
Variable interpolate_at_local_vals :
  Z -> MatrixXd -> VectorXd -> MatrixXd * MatrixXd.

(** A [State] as the two methods read it: the elements and their body
    ids, and the geometry and the cached solutions. *)
Record Simulation : Type := {
  mesh_of : Mesh;
  state_of : TargetState ElementBases
}.

(** The members [state_], [target_state_] (a [shared_ptr], null in a new
    object) and [e_to_ref_e_]. *)
Record t : Type := {
  state_ : Mesh;
  target_state_ : option Simulation;
  e_to_ref_e_ : gmap Z Z
}.

(** [TargetObjective::set_reference] on the object: the assignment
    [target_state_ = target_state] and the map of [set_reference]. *)
Definition set_reference_of (this : t) (target_state : Simulation)
    (reference_cached_body_ids : gset Z) : option (t * list log_entry) :=
  '(m, log) ← set_reference (state_ this) (mesh_of target_state)
                reference_cached_body_ids (e_to_ref_e_ this);
  Some ({| state_ := state_ this;
           target_state_ := Some target_state;
           e_to_ref_e_ := m |}, log).

(** [TargetObjective::get_integral_functional]: the closures [j_func] and
    [djdu_func] over the members; [None] is a failed assertion,
    [assert(target_state_)] or
    [assert(target_state_->diff_cached.size() > 0)]. *)
Definition get_integral_functional (this : t)
    : option ((MatrixXd -> MatrixXd -> MatrixXd -> Z -> Z -> option VectorXd)
              * (MatrixXd -> MatrixXd -> MatrixXd -> Z -> Z -> option MatrixXd)) :=
  target_state ← target_state_ this;
  if (0 <? length (diff_cached ElementBases (state_of target_state)))%nat then
    Some (j_func ElementBases eval_geom_mapping interpolate_at_local_vals
            (e_to_ref_e_ this) (state_of target_state),
          djdu_func ElementBases eval_geom_mapping interpolate_at_local_vals
            (e_to_ref_e_ this) (state_of target_state))
  else None.

End Members.

End TargetObjective.

End Objective.

(** ** Concrete collaborators, to run the solver on *)

Module Toy.

Import ALSolver.

(** The world counts the calls of the minimizer. *)
Definition world : Type := nat.

(** A rounding to run the model with: exact up to [limit] in absolute
    value, an infinity beyond. *)
Definition saturating (limit : Q) (q : Q) : double :=
  if Qltb limit q then PInf else if Qltb q (- limit) then NInf else Fin q.

Definition round : Q -> double := saturating 1000.

(** A problem on one unknown whose objective value is NaN until the
    minimizer has run [k] times; every step is valid and collision free. *)
Definition problem (k : nat) : NLProblem world := {|
  full_size := fun _ => 1%nat;
  reduced_size := fun _ => 1%nat;
  full_to_reduced := fun _ x => x;
  reduced_to_full := fun _ x => x;
  value := fun w _ => if (w <? k)%nat then NaN else Fin 0;
  is_step_valid := fun _ _ _ => true;
  is_step_collision_free := fun _ _ _ => true;
  line_search_begin := fun _ _ w => w;
  line_search_end := fun w => w;
  init := fun _ w => w;
  use_full_size := fun w => w;
  use_reduced_size := fun w => w;
  set_apply_DBC := fun _ _ w => w
|}.

(** A minimizer that leaves its argument alone and never throws. *)
Definition solver : NLSolver world := {|
  minimize := fun x w => (S w, x, None);
  stop_criteria_iterations := fun _ => 100%Z;
  set_stop_criteria_iterations := fun _ w => w
|}.

Definition lagrangian : LagrangianForm world := {|
  lagr_enable := fun w => w;
  lagr_disable := fun w => w;
  update_lagrangian := fun _ _ w => w
|}.

(** A penalty form whose error stays 1: [eta] is 0 in every iteration. *)
Definition penalty : LagrangianPenaltyForm world := {|
  pen_enable := fun w => w;
  pen_disable := fun w => w;
  pen_set_weight := fun _ w => w;
  compute_error := fun _ _ => Fin 1
|}.

(** An [ALSolver] with the given weights and [eta_tol = 0.99]. *)
Definition al_solver (initial scale max : Q) : ALSolver world := {|
  lagr_form := Some lagrangian;
  pen_form := Some penalty;
  initial_al_weight := Fin initial;
  scaling := Fin scale;
  max_al_weight := Fin max;
  eta_tol := Fin (99 # 100);
  update_barrier_stiffness := fun _ w => w;
  post_subsolve := fun _ w => w
|}.

End Toy.

(** ** Concrete objectives *)

Module ToyObjective.

Import Eigen Objective.

(** A simulation of [n] elements, all of the body [id]. *)
Definition mesh (n : nat) (id : Z) : TargetObjective.Mesh := {|
  TargetObjective.n_bases := n;
  TargetObjective.get_body_id := fun _ => id
|}.

(** A state of one degree of freedom. *)
Definition one_dof : State := {| ndof := 1 |}.

(** A transient objective over the time steps 0 and 1 (uniform rule,
    [dt = 1]) around a static objective whose right-hand side is 1 at
    every step: its adjoint right-hand side has one row (one degree of
    freedom) and two columns (one per time step). *)
Definition two_steps : Objective := {|
  Objective.value := 1;
  Objective.compute_adjoint_rhs := fun state =>
    default []
      (TransientObjective.compute_adjoint_rhs 1 1 "uniform"
         (fun _ _ => [1]) state);
  Objective.compute_partial_gradient := fun param => Zero (full_dim param)
|}.

(** The elastic, shape and topology parameters of a compliance
    objective, at the addresses 1, 2 and 3. *)
Definition elastic_parameter : DesignParameter := {| address := 1; full_dim := 2 |}.
Definition shape_parameter : DesignParameter := {| address := 2; full_dim := 4 |}.
Definition topology_parameter : DesignParameter := {| address := 3; full_dim := 1 |}.

(** A compliance objective on a mesh without elements. *)
Definition compliance : ComplianceObjective.t := {|
  ComplianceObjective.elastic_param_ := Some (address elastic_parameter);
  ComplianceObjective.shape_param_ := Some (address shape_parameter);
  ComplianceObjective.topo_param_ := Some (address topology_parameter);
  ComplianceObjective.time_step_ := 0;
  ComplianceObjective.formulation := "LinearElasticity";
  ComplianceObjective.dim := 2;
  ComplianceObjective.diff_cached := [[]];
  ComplianceObjective.density_mat_ := [];
  ComplianceObjective.density_power_ := 3;
  ComplianceObjective.lambda_mu := fun _ _ => (1, 1);
  ComplianceObjective.elements := []
|}.

(** The stress objective with the same parameters. *)
Definition stress : StressObjective.t := {|
  StressObjective.elastic_param_ := Some (address elastic_parameter);
  StressObjective.shape_param_ := Some (address shape_parameter);
  StressObjective.in_power_ := 2;
  StressObjective.out_sqrt_ := false;
  StressObjective.integral_value := 1;
  StressObjective.integral_gradient := fun param => Zero (full_dim param)
|}.

(** A reference simulation of two elements in one dimension; a geometry
    basis is the offset of its element, and the reference field is zero. *)
Definition target_state : TargetObjective.TargetState Q := {|
  TargetObjective.geom_bases := [0; 10];
  TargetObjective.is_time_dependent := false;
  TargetObjective.diff_cached := [[0; 0; 0]]
|}.

Definition eval_geom_mapping (offset : Q) (local_pts : MatrixXd) : MatrixXd :=
  map (map (Qplus offset)) local_pts.

Definition interpolate_at_local_vals (e_ref : Z) (local_pts : MatrixXd)
    (sol_ref : VectorXd) : MatrixXd * MatrixXd :=
  (map (map (fun _ => 0)) local_pts, map (map (fun _ => 0)) local_pts).

(** The unit square: volume 1, position integrals 1/2 on both axes, and
    the origin as the target. *)
Definition unit_square : BarycenterTargetObjective.t := {|
  BarycenterTargetObjective.dim_ := 2;
  BarycenterTargetObjective.target_ := [[0; 0]];
  BarycenterTargetObjective.time_step_ := 0;
  BarycenterTargetObjective.objv := 1;
  BarycenterTargetObjective.objp := fun _ _ => 1 # 2
|}.

End ToyObjective.

(** ** A minimizer with an iteration budget *)

Module ToyBudget.

Import ALSolver.

(** The world holds the number of calls of the minimizer and the
    iteration budget of its stopping criteria. *)
Definition world : Type := (nat * Z)%type.

(** The problem of [Toy.problem], on the first component of the world. *)
Definition problem (k : nat) : NLProblem world := {|
  full_size := fun _ => 1%nat;
  reduced_size := fun _ => 1%nat;
  full_to_reduced := fun _ x => x;
  reduced_to_full := fun _ x => x;
  value := fun w _ => if (w.1 <? k)%nat then NaN else Fin 0;
  is_step_valid := fun _ _ _ => true;
  is_step_collision_free := fun _ _ _ => true;
  line_search_begin := fun _ _ w => w;
  line_search_end := fun w => w;
  init := fun _ w => w;
  use_full_size := fun w => w;
  use_reduced_size := fun w => w;
  set_apply_DBC := fun _ _ w => w
|}.

(** A minimizer that uses up one unit of its budget at every call. *)
Definition solver : NLSolver world := {|
  minimize := fun x w => ((S w.1, (w.2 - 1)%Z), x, None);
  stop_criteria_iterations := fun w => w.2;
  set_stop_criteria_iterations := fun n w => (w.1, n)
|}.

Definition lagrangian : LagrangianForm world := {|
  lagr_enable := fun w => w;
  lagr_disable := fun w => w;
  update_lagrangian := fun _ _ w => w
|}.

Definition penalty : LagrangianPenaltyForm world := {|
  pen_enable := fun w => w;
  pen_disable := fun w => w;
  pen_set_weight := fun _ w => w;
  compute_error := fun _ _ => Fin 1
|}.

Definition al_solver (initial scale max : Q) : ALSolver world := {|
  lagr_form := Some lagrangian;
  pen_form := Some penalty;
  initial_al_weight := Fin initial;
  scaling := Fin scale;
  max_al_weight := Fin max;
  eta_tol := Fin (99 # 100);
  update_barrier_stiffness := fun _ w => w;
  post_subsolve := fun _ w => w
|}.

End ToyBudget.

(** ** Two simulations of the same elements under two numberings *)

Module ToyMeshes.

Import Objective.

(** [n] elements, the bodies 0 and 1 alternating. *)
Definition striped (n : nat) : TargetObjective.Mesh := {|
  TargetObjective.n_bases := n;
  TargetObjective.get_body_id := fun e => (e mod 2)%Z
|}.

(** [n] elements, the first half of the body 0, the rest of the body 1. *)
Definition blocks (n : nat) : TargetObjective.Mesh := {|
  TargetObjective.n_bases := n;
  TargetObjective.get_body_id := fun e => if (2 * e <? Z.of_nat n)%Z then 0%Z else 1%Z
|}.

End ToyMeshes.

(** ** A target objective before its reference is set *)

Module ToyTarget.

Import Objective.

(** The toy reference simulation as a simulation of two elements of the
    body 7. *)
Definition simulation : TargetObjective.Simulation Q := {|
  TargetObjective.mesh_of := ToyObjective.mesh 2 7;
  TargetObjective.state_of := ToyObjective.target_state
|}.

(** A new objective on that simulation: no reference, an empty map. *)
Definition fresh : TargetObjective.t Q := {|
  TargetObjective.state_ := ToyObjective.mesh 2 7;
  TargetObjective.target_state_ := None;
  TargetObjective.e_to_ref_e_ := ∅
|}.

End ToyTarget.

(** ** Objectives to add up, and objectives on one element *)

Module ToySum.

Import Eigen Objective.

(** An objective given by its value, the column of its adjoint right-hand
    side and its gradient. *)
Definition constant (v : Q) (rhs grad : VectorXd) : Objective := {|
  Objective.value := v;
  Objective.compute_adjoint_rhs := fun _ => as_matrix rhs;
  Objective.compute_partial_gradient := fun _ => grad
|}.

Definition two_dofs : State := {| ndof := 2 |}.

Definition two_entries : DesignParameter := {| address := 5; full_dim := 2 |}.

(** The gradient of a static objective that moves with the time step. *)
Definition step_gradient (i : nat) (param : DesignParameter) : VectorXd :=
  [inject_Z (Z.of_nat i); 2 * inject_Z (Z.of_nat i)].

End ToySum.

Module ToyCompliance.

Import Eigen Objective.

(** [pow] on an integer exponent. *)
Definition pow (x y : Q) : Q := x ^ (Qnum y / Zpos (Qden y))%Z.

(** A compliance objective on one element in one dimension, with one basis
    function of gradient 1, the displacement 2 and the density 1. *)
Definition one_element : ComplianceObjective.t := {|
  ComplianceObjective.elastic_param_ := Some (address ToyObjective.elastic_parameter);
  ComplianceObjective.shape_param_ := Some (address ToyObjective.shape_parameter);
  ComplianceObjective.topo_param_ := Some (address ToyObjective.topology_parameter);
  ComplianceObjective.time_step_ := 0;
  ComplianceObjective.formulation := "LinearElasticity";
  ComplianceObjective.dim := 1;
  ComplianceObjective.diff_cached := [[2]];
  ComplianceObjective.density_mat_ := [1];
  ComplianceObjective.density_power_ := 3;
  ComplianceObjective.lambda_mu := fun _ _ => (1, 1);
  ComplianceObjective.elements :=
    [{| ComplianceObjective.basis_values :=
          [{| ComplianceObjective.global :=
                [{| ComplianceObjective.index := 0; ComplianceObjective.val := 1 |}];
              ComplianceObjective.grad_t_m := [[1]] |}];
        ComplianceObjective.quadrature_weights := [1];
        ComplianceObjective.det := [1] |}]
|}.

End ToyCompliance.

Module ToyBarycenter.

Import Eigen Objective.

(** The unit square over two time steps, with the origin as the target
    of the first step and the point (1, 1) as that of the second. *)
Definition per_step : BarycenterTargetObjective.t := {|
  BarycenterTargetObjective.dim_ := 2;
  BarycenterTargetObjective.target_ := [[0; 0]; [1; 1]];
  BarycenterTargetObjective.time_step_ := 0;
  BarycenterTargetObjective.objv := 1;
  BarycenterTargetObjective.objp := fun _ _ => 1 # 2
|}.



End ToyBarycenter.

(** * Properties *)

(** ** Comparisons on [Q] *)

Lemma Qltb_lt x y : Qltb x y = true <-> x < y.
Proof. unfold Qltb, Qlt. apply Z.ltb_lt. Qed.

Lemma Qltb_ge x y : Qltb x y = false <-> y <= x.
Proof. unfold Qltb, Qle. rewrite Z.ltb_ge. reflexivity. Qed.

Lemma Qleb_le x y : Qleb x y = true <-> x <= y.
Proof. unfold Qleb, Qle. apply Z.leb_le. Qed.

(** The saturating rounding is a rounding. *)
Lemma saturating_rounding (limit : Q) :
  0 <= limit -> Double.rounding (Toy.saturating limit).
Proof.
  intros L. split.
  - intros a b H. unfold Toy.saturating.
    destruct (Qltb limit a) eqn:A, (Qltb limit b) eqn:B,
      (Qltb a (- limit)) eqn:A', (Qltb b (- limit)) eqn:B'; cbn;
      try reflexivity;
      rewrite ?Qltb_lt, ?Qltb_ge in *; try lra.
    apply Qleb_le. exact H.
  - intros a b. unfold Toy.saturating.
    destruct (Qltb limit a) eqn:A; [discriminate|].
    destruct (Qltb a (- limit)) eqn:A'; [discriminate|].
    intros [= <-]. rewrite A, A'. reflexivity.
Qed.

(** ** ALSolver *)

Module ALSolverFacts.

Import ALSolver.

Ltac break_match :=
  match goal with
  | |- context [match ?x with _ => _ end] => destruct x eqn:?
  | H : context [match ?x with _ => _ end] |- _ => destruct x eqn:?
  end.

Section Facts.

Context {W : Type}.
Variable rsqrt : Q -> Q.
Variable round : Q -> double.
Variable this : ALSolver W.
Variable nl_solver : NLSolver W.
Variable nl_problem : NLProblem W.

Local Abbreviation body := (al_body rsqrt round this nl_solver nl_problem).
Local Abbreviation loop := (al_loop rsqrt round this nl_solver nl_problem).
Local Abbreviation step := (al_step rsqrt round this nl_solver nl_problem).
Local Abbreviation run := (al_run rsqrt round this nl_solver nl_problem).
Local Abbreviation rejected := (step_rejected nl_problem).

(** A pass through the body that reaches the loop condition again leaves
    [tmp_sol] the reduced view of [sol]; it has computed [eta], and it
    multiplies the weight by [scaling] exactly when [eta < eta_tol] and
    the weight is below the maximum, keeping it otherwise. *)
Lemma al_body_next isol ie w l w' l' :
  body isol ie w l = (w', inl l') ->
  (exists w_pre, tmp_sol l' = full_to_reduced nl_problem w_pre (sol l'))
  /\ exists eta,
       al_eta rsqrt round this nl_solver nl_problem ie w l = Some eta
       /\ al_weight l'
          = if Double.lt eta (eta_tol this)
               && Double.lt (al_weight l) (max_al_weight this)
            then Double.mul round (al_weight l) (scaling this)
            else al_weight l.
Proof.
  unfold al_body, al_eta. intros H.
  repeat break_match; try discriminate;
    injection H as <- <-; cbn [sol tmp_sol al_weight];
    (split; [eexists; reflexivity|]);
    eexists; (split; [reflexivity|]);
    match goal with
    | E : andb _ _ = _ |- _ => rewrite E; reflexivity
    end.
Qed.

(** The body never leaves the loop with the status of a normal return. *)
Lemma al_body_exit isol ie w l w' s st :
  body isol ie w l = (w', inr (s, st)) -> st <> Returned.
Proof.
  unfold al_body. intros H.
  repeat break_match; try discriminate; injection H as <- <- <-; discriminate.
Qed.

(** When the loop is left normally its condition is false, and the state
    it is left in is one the loop reaches. *)
Lemma al_loop_returned fuel isol ie w l w2 l2 :
  loop fuel isol ie w l = (w2, l2, Returned) ->
  rejected w2 (sol l2) (tmp_sol l2) = false
  /\ rtc (step isol ie) (w, l) (w2, l2).
Proof.
  revert w l. induction fuel as [|fuel IH]; intros w l; cbn [al_loop].
  - destruct (rejected w (sol l) (tmp_sol l)) eqn:G; [discriminate|].
    intros [= <- <-]. split; [exact G|constructor].
  - destruct (rejected w (sol l) (tmp_sol l)) eqn:G.
    + destruct (body isol ie w l) as [w' [l'|[s st]]] eqn:B.
      * intros H. destruct (IH _ _ H) as [G2 R]. split; [exact G2|].
        eapply rtc_l; [|exact R]. constructor; assumption.
      * intros [= <- <- ->]. apply al_body_exit in B. congruence.
    + intros [= <- <-]. split; [exact G|constructor].
Qed.

(** In every state of a run [tmp_sol] is the reduced view of [sol]. *)
Lemma al_run_tmp_sol w sol0 st :
  run w sol0 st ->
  exists w_pre, tmp_sol st.2 = full_to_reduced nl_problem w_pre (sol st.2).
Proof.
  intros (w1 & l0 & ie & E & R). revert st R.
  apply (rtc_ind_r (fun st => exists w_pre,
           tmp_sol st.2 = full_to_reduced nl_problem w_pre (sol st.2))).
  - unfold al_enter in E. repeat break_match; try discriminate.
    injection E as <- <- <-. eexists; reflexivity.
  - intros y z _ Hyz _. inversion Hyz as [wa la wb lb G B]; subst.
    apply al_body_next in B as [T _]. exact T.
Qed.

Lemma al_enter_weight w sol0 w1 l0 ie :
  al_enter this nl_problem w sol0 = inl (w1, l0, ie) ->
  al_weight l0 = initial_al_weight this.
Proof.
  unfold al_enter. intros E. repeat break_match; try discriminate.
  injection E as <- <- <-. reflexivity.
Qed.

(** One multiplication by [scaling >= 1] of a weight [q >= i > 0] that is
    a double, below the maximum [m]. *)
Lemma scaled_weight (i s m q : Q) :
  Double.rounding round -> 0 < i -> 1 <= s ->
  i <= q -> round q = Fin q -> q < m ->
  Double.le (Fin q) (round (q * s)) = true
  /\ (round (q * s) = PInf
      \/ exists r, round (q * s) = Fin r /\ i <= r /\ round r = Fin r)
  /\ Double.le (round (q * s)) (round (m * s)) = true.
Proof.
  intros [Mono Idem] Ipos Sge Lo Rep Lt.
  assert (Up : Double.le (Fin q) (round (q * s)) = true).
  { rewrite <- Rep. apply Mono. nra. }
  split; [exact Up|]. split; [|apply Mono; nra].
  destruct (round (q * s)) as [r| | |] eqn:E; try discriminate Up.
  - right. exists r. cbn in Up. apply Qleb_le in Up.
    split; [reflexivity|]. split; [lra|]. eapply Idem, E.
  - left. reflexivity.
Qed.

(** The weight of every state of a run, for finite parameters with a
    positive initial weight and a scaling of at least one: it is
    infinite or a double of at least the initial weight, and at most the
    initial weight or the product of the maximum and the scaling. *)
Lemma al_run_weight (i s m : Q) w sol0 st :
  Double.rounding round -> round i = Fin i ->
  initial_al_weight this = Fin i -> scaling this = Fin s ->
  max_al_weight this = Fin m -> 0 < i -> 1 <= s ->
  run w sol0 st ->
  (al_weight st.2 = PInf
   \/ exists q, al_weight st.2 = Fin q /\ i <= q /\ round q = Fin q)
  /\ (Double.le (al_weight st.2) (Fin i) = true
      \/ Double.le (al_weight st.2) (round (m * s)) = true).
Proof.
  intros Rnd Ri Hi Hs Hm Ipos Sge (w1 & l0 & ie & E & R). revert st R.
  apply (rtc_ind_r (fun st =>
           (al_weight st.2 = PInf
            \/ exists q, al_weight st.2 = Fin q /\ i <= q /\ round q = Fin q)
           /\ (Double.le (al_weight st.2) (Fin i) = true
               \/ Double.le (al_weight st.2) (round (m * s)) = true))).
  - apply al_enter_weight in E. cbn. rewrite E, Hi. split.
    + right. exists i. split; [reflexivity|]. split; [lra|exact Ri].
    + left. cbn. apply Qleb_le. lra.
  - intros y z _ Hyz [Shape Bound]. inversion Hyz as [wa la wb lb G B]; subst.
    cbn in *. apply al_body_next in B as [_ (eta & _ & Next)].
    destruct (Double.lt eta (eta_tol this)
              && Double.lt (al_weight la) (max_al_weight this)) eqn:Raise;
      [|rewrite Next; tauto].
    apply andb_prop in Raise as [_ Lt].
    destruct Shape as [Inf|(q & Eq & Lo & Rep)];
      [rewrite Inf, Hm in Lt; discriminate Lt|].
    rewrite Eq, Hm in Lt. cbn in Lt. apply Qltb_lt in Lt.
    rewrite Next, Eq, Hs. cbn [Double.mul].
    destruct (scaled_weight i s m q Rnd Ipos Sge Lo Rep Lt) as (_ & Shape' & Le).
    split; [exact Shape'|right; exact Le].
Qed.

(** C1 (as amended): with finite parameters, [initial_al_weight > 0] and
    [scaling >= 1], the weight starts at [initial_al_weight]; an outer
    iteration multiplies it by [scaling] exactly when [eta < eta_tol] and
    the weight is below [max_al_weight], and keeps it otherwise, so it
    never decreases; and it is never below [initial_al_weight] and never
    above the larger of [initial_al_weight] and the product
    [max_al_weight * scaling], an infinity where that product
    overflows. *)
Theorem al_weight_monotone_bounded (i s m : Q) (w : W) (sol0 : Vec) :
  Double.rounding round -> round i = Fin i ->
  initial_al_weight this = Fin i -> scaling this = Fin s ->
  max_al_weight this = Fin m -> 0 < i -> 1 <= s ->
  forall w1 l0 ie,
    al_enter this nl_problem w sol0 = inl (w1, l0, ie) ->
    al_weight l0 = Fin i
    /\ (forall st st',
          rtc (step sol0 ie) (w1, l0) st -> step sol0 ie st st' ->
          (exists eta,
             al_eta rsqrt round this nl_solver nl_problem ie st.1 st.2 = Some eta
             /\ al_weight st'.2
                = if Double.lt eta (eta_tol this)
                     && Double.lt (al_weight st.2) (max_al_weight this)
                  then Double.mul round (al_weight st.2) (scaling this)
                  else al_weight st.2)
          /\ Double.le (al_weight st.2) (al_weight st'.2) = true)
    /\ (forall st,
          rtc (step sol0 ie) (w1, l0) st ->
          Double.le (Fin i) (al_weight st.2) = true
          /\ (Double.le (al_weight st.2) (Fin i) = true
              \/ Double.le (al_weight st.2)
                   (Double.mul round (Fin m) (Fin s)) = true)).
Proof.
  intros Rnd Ri Hi Hs Hm Ipos Sge w1 l0 ie E.
  assert (Inv : forall st, rtc (step sol0 ie) (w1, l0) st ->
            (al_weight st.2 = PInf
             \/ exists q, al_weight st.2 = Fin q /\ i <= q /\ round q = Fin q)
            /\ (Double.le (al_weight st.2) (Fin i) = true
                \/ Double.le (al_weight st.2) (round (m * s)) = true)).
  { intros st R. apply (al_run_weight i s m w sol0 st); try assumption.
    exists w1, l0, ie. split; assumption. }
  split; [|split].
  - apply al_enter_weight in E. congruence.
  - intros st st' R S. destruct (Inv st R) as [Shape _].
    inversion S as [wa la wb lb G B]; subst. cbn in *.
    apply al_body_next in B as [_ (eta & Eta & Next)].
    split; [exists eta; split; assumption|].
    rewrite Next.
    destruct (Double.lt eta (eta_tol this)
              && Double.lt (al_weight la) (max_al_weight this)) eqn:Raise.
    + apply andb_prop in Raise as [_ Lt].
      destruct Shape as [Inf|(q & Eq & Lo & Rep)];
        [rewrite Inf, Hm in Lt; discriminate Lt|].
      rewrite Eq, Hm in Lt. cbn in Lt. apply Qltb_lt in Lt.
      rewrite Eq, Hs. cbn [Double.mul].
      apply (scaled_weight i s m q Rnd Ipos Sge Lo Rep Lt).
    + destruct Shape as [->|(q & -> & _)]; [reflexivity|].
      cbn. apply Qleb_le. lra.
  - intros st R. destruct (Inv st R) as [Shape Bound]. split; [|exact Bound].
    destruct Shape as [->|(q & -> & Lo & _)]; [reflexivity|].
    cbn. apply Qleb_le. exact Lo.
Qed.

(** C2: when [solve_al] returns normally, the loop condition was false on
    the returned solution: in the world [wg] of that last test, with
    [tmp_sol] the reduced view of the solution, the objective value is
    finite, the step is valid and the step is collision free.  After the
    test the call only ends the line search and restores the iteration
    budget. *)
Theorem solve_al_returns_accepted fuel w sol0 w' sol' :
  solve_al rsqrt round this nl_solver nl_problem fuel w sol0 = (w', sol', Returned) ->
  exists wg w_pre l,
    let tmp := full_to_reduced nl_problem w_pre sol' in
    run w sol0 (wg, l) /\ sol l = sol' /\ tmp_sol l = tmp
    /\ Double.isfinite (value nl_problem wg tmp) = true
    /\ is_step_valid nl_problem wg sol' tmp = true
    /\ is_step_collision_free nl_problem wg sol' tmp = true
    /\ w' = set_stop_criteria_iterations nl_solver
              (stop_criteria_iterations nl_solver w)
              (line_search_end nl_problem wg).
Proof.
  unfold solve_al. intros H.
  destruct (al_enter this nl_problem w sol0) as [[[w1 l0] ie]|why] eqn:E;
    [|discriminate].
  destruct (loop fuel sol0 ie w1 l0) as [[w2 l] st] eqn:L.
  destruct st as [[]| | |]; try discriminate. injection H as <- <-.
  apply al_loop_returned in L as [G R].
  assert (Run : run w sol0 (w2, l)) by (exists w1, l0, ie; split; assumption).
  destruct (al_run_tmp_sol w sol0 _ Run) as [w_pre T]. cbn in T.
  exists w2, w_pre, l. cbn zeta. rewrite <- T.
  unfold step_rejected in G.
  apply orb_false_elim in G as [G G3]. apply orb_false_elim in G as [G1 G2].
  apply negb_false_iff in G1, G2, G3. repeat split; auto.
Qed.

(** The three tests of the loop condition, spelled out. *)
Lemma step_rejected_iff w s tmp :
  rejected w s tmp = true <->
  Double.isfinite (value nl_problem w tmp) = false
  \/ is_step_valid nl_problem w s tmp = false
  \/ is_step_collision_free nl_problem w s tmp = false.
Proof.
  unfold step_rejected. rewrite !orb_true_iff, !negb_true_iff. tauto.
Qed.

End Facts.

(** C3: called on a solution whose objective value is not finite, or that
    is not a valid step, or not a collision-free one, [solve_reduced] does
    not return normally, whatever the minimizer is: on an argument of the
    size of the problem it throws the error "Failed to apply boundary
    conditions; ..." out of the world it reached by opening the line
    search, with [sol] untouched and nothing of the minimizer run. *)
Theorem solve_reduced_rejects {W : Type} (this : ALSolver W)
    (nl_problem : NLProblem W) (w : W) (sol0 : Vec) :
  let tmp := full_to_reduced nl_problem w sol0 in
  let w1 := line_search_begin nl_problem sol0 tmp w in
  Double.isfinite (value nl_problem w1 tmp) = false
  \/ is_step_valid nl_problem w1 sol0 tmp = false
  \/ is_step_collision_free nl_problem w1 sol0 tmp = false ->
  forall nl_solver : NLSolver W,
    (solve_reduced this nl_solver nl_problem w sol0).2 <> Returned
    /\ (length sol0 = full_size nl_problem w ->
        solve_reduced this nl_solver nl_problem w sol0
        = (w1, sol0, Thrown (runtime_error msg_apply_bc))).
Proof.
  intros tmp w1 Hrej nl_solver. apply step_rejected_iff in Hrej.
  unfold solve_reduced. fold tmp. fold w1. rewrite Hrej.
  destruct (length sol0 =? full_size nl_problem w)%nat eqn:Size; cbn [negb].
  - split; [discriminate|reflexivity].
  - split; [discriminate|]. intros E. rewrite E, Nat.eqb_refl in Size.
    discriminate.
Qed.

(** The toy run with weights 3, 2 and 4: one outer iteration, after which
    the problem accepts the step. *)
Lemma toy_run_reaches :
  al_run Qsqrt_floor Toy.round (Toy.al_solver 3 2 4) Toy.solver (Toy.problem 1) 0%nat [0]
    (1%nat, {| sol := [0]; tmp_sol := [0]; al_weight := Fin 6; al_steps := 1 |}).
Proof.
  eexists _, _, _. split; [reflexivity|].
  apply rtc_once. constructor; reflexivity.
Qed.

(** The toy run with weights 3, 2 and 4, under the rounding that is exact
    up to 1000. *)
Lemma al_weight_monotone_bounded_witness :
  let l0 := {| sol := [0]; tmp_sol := [0]; al_weight := Fin 3; al_steps := 0 |} in
  al_weight l0 = Fin 3
  /\ (forall st st',
        rtc (al_step Qsqrt_floor Toy.round (Toy.al_solver 3 2 4) Toy.solver
               (Toy.problem 1) [0] (Fin 1)) (0%nat, l0) st ->
        al_step Qsqrt_floor Toy.round (Toy.al_solver 3 2 4) Toy.solver
          (Toy.problem 1) [0] (Fin 1) st st' ->
        (exists eta,
           al_eta Qsqrt_floor Toy.round (Toy.al_solver 3 2 4) Toy.solver
             (Toy.problem 1) (Fin 1) st.1 st.2 = Some eta
           /\ al_weight st'.2
              = if Double.lt eta (eta_tol (Toy.al_solver 3 2 4))
                   && Double.lt (al_weight st.2)
                        (max_al_weight (Toy.al_solver 3 2 4))
                then Double.mul Toy.round (al_weight st.2)
                       (scaling (Toy.al_solver 3 2 4))
                else al_weight st.2)
        /\ Double.le (al_weight st.2) (al_weight st'.2) = true)
  /\ (forall st,
        rtc (al_step Qsqrt_floor Toy.round (Toy.al_solver 3 2 4) Toy.solver
               (Toy.problem 1) [0] (Fin 1)) (0%nat, l0) st ->
        Double.le (Fin 3) (al_weight st.2) = true
        /\ (Double.le (al_weight st.2) (Fin 3) = true
            \/ Double.le (al_weight st.2)
                 (Double.mul Toy.round (Fin 4) (Fin 2)) = true)).
Proof.
  apply (al_weight_monotone_bounded Qsqrt_floor Toy.round (Toy.al_solver 3 2 4)
           Toy.solver (Toy.problem 1) 3 2 4 0%nat [0]);
    [apply saturating_rounding; discriminate
    | reflexivity | reflexivity | reflexivity | reflexivity | reflexivity
    | discriminate | reflexivity].
Defined.

(** Under a rounding that overflows beyond 5 the same run raises the
    weight 3 to an infinity: the product of a weight below the maximum
    and the scaling need not be finite. *)
Lemma toy_run_overflows :
  al_run Qsqrt_floor (Toy.saturating 5) (Toy.al_solver 3 2 4) Toy.solver
    (Toy.problem 1) 0%nat [0]
    (1%nat, {| sol := [0]; tmp_sol := [0]; al_weight := PInf; al_steps := 1 |}).
Proof.
  eexists _, _, _. split; [reflexivity|].
  apply rtc_once. constructor; reflexivity.
Qed.

(** C1 (as stated) fails.  With [initial_al_weight = 3], [scaling = 2]
    and [max_al_weight = 4] the first outer iteration finds [3 < 4] and
    raises the weight to 6, above the maximum.  With
    [initial_al_weight = 4], [scaling = 1/2] and [max_al_weight = 8] the
    first outer iteration lowers the weight to 2. *)
Lemma al_weight_exceeds_max :
  ~ al_weight_capped Qsqrt_floor Toy.round (Toy.al_solver 3 2 4) Toy.solver
      (Toy.problem 1) 0%nat [0]
  /\ ~ al_weight_capped Qsqrt_floor Toy.round (Toy.al_solver 4 (1 # 2) 8) Toy.solver
         (Toy.problem 1) 0%nat [0].
Proof.
  split.
  - intros (_ & _ & Cap). specialize (Cap _ toy_run_reaches). discriminate Cap.
  - intros (_ & Mono & _).
    specialize (Mono
      (0%nat, {| sol := [0]; tmp_sol := [0]; al_weight := Fin 4; al_steps := 0 |})
      (1%nat, {| sol := [0]; tmp_sol := [0]; al_weight := Fin (4 * (1 # 2));
                 al_steps := 1 |})).
    enough (Double.le (Fin 4) (Fin (4 * (1 # 2))) = true) as E by discriminate E.
    apply Mono. eexists _, _, _. split; [reflexivity|].
    split; [constructor|]. constructor; reflexivity.
Qed.

Lemma solve_al_returns_accepted_witness :
  exists wg w_pre l,
    let tmp := full_to_reduced (Toy.problem 1) w_pre [0] in
    al_run Qsqrt_floor Toy.round (Toy.al_solver 3 2 4) Toy.solver (Toy.problem 1)
      0%nat [0] (wg, l)
    /\ sol l = [0] /\ tmp_sol l = tmp
    /\ Double.isfinite (value (Toy.problem 1) wg tmp) = true
    /\ is_step_valid (Toy.problem 1) wg [0] tmp = true
    /\ is_step_collision_free (Toy.problem 1) wg [0] tmp = true
    /\ 1%nat = set_stop_criteria_iterations Toy.solver
                 (stop_criteria_iterations Toy.solver 0%nat)
                 (line_search_end (Toy.problem 1) wg).
Proof.
  apply (solve_al_returns_accepted Qsqrt_floor Toy.round (Toy.al_solver 3 2 4)
           Toy.solver (Toy.problem 1) 5 0%nat [0] 1%nat [0]).
  reflexivity.
Defined.

Lemma solve_reduced_rejects_witness :
  (solve_reduced (Toy.al_solver 3 2 4) Toy.solver (Toy.problem 1) 0%nat [0]).2
    <> Returned
  /\ solve_reduced (Toy.al_solver 3 2 4) Toy.solver (Toy.problem 1) 0%nat [0]
     = (0%nat, [0], Thrown (runtime_error msg_apply_bc)).
Proof.
  destruct (solve_reduced_rejects (Toy.al_solver 3 2 4) (Toy.problem 1)
              0%nat [0]) with (nl_solver := Toy.solver) as [Never Throws].
  - left. reflexivity.
  - split; [exact Never|]. apply Throws. reflexivity.
Defined.

End ALSolverFacts.

(** ** Objectives *)

Module ObjectiveFacts.

Import Eigen Objective.

(** *** Transient quadrature weights *)

Section Transient.

Import TransientObjective.

Lemma store_length i x v v' : store i x v = Some v' -> length v' = length v.
Proof.
  unfold store. destruct (i <? length v)%nat; [|discriminate].
  intros [= <-]. apply length_insert.
Qed.

Lemma simpson_interior_length dt count : forall from v v',
  simpson_interior dt from count v = Some v' -> length v' = length v.
Proof.
  induction count as [|count IH]; intros from v v'; cbn [simpson_interior].
  - intros [= <-]. reflexivity.
  - destruct (store from _ v) as [v1|] eqn:S; [|discriminate]. cbn.
    intros H. apply IH in H. apply store_length in S. congruence.
Qed.

(** X7: whatever the rule, a vector of weights that is returned has
    [time_steps + 1] entries. *)
Lemma weights_length time_steps dt rule ws :
  get_transient_quadrature_weights time_steps dt rule = Some ws ->
  length ws = Z.to_nat (time_steps + 1).
Proof.
  unfold get_transient_quadrature_weights.
  destruct (time_steps + 1 <? 0)%Z; [discriminate|].
  repeat match goal with
         | |- context [if ?c then _ else _] => destruct c
         end; try discriminate; intros H;
    repeat match type of H with
           | (?x ≫= _) = Some _ =>
               let E := fresh "E" in
               destruct x eqn:E; cbn [mbind option_bind] in H; [|discriminate]
           | (if ?c then _ else _) = Some _ => destruct c; [|discriminate]
           end;
    repeat match goal with
           | E : store _ _ _ = Some _ |- _ => apply store_length in E
           | E : simpson_interior _ _ _ _ = Some _ |- _ =>
               apply simpson_interior_length in E
           end;
    rewrite ?repeat_length in *; congruence.
Qed.

(** C4: the weights for [time_steps = 4] and [dt = 1.0] under the five
    rules, each vector with [time_steps + 1 = 5] entries. *)
Theorem transient_weights_table :
  let weights := get_transient_quadrature_weights 4 1 in
  weights "uniform"%string = Some [0; 1; 1; 1; 1]
  /\ weights "trapezoidal"%string = Some [1 # 2; 1; 1; 1; 1 # 2]
  /\ weights "final"%string = Some [0; 0; 0; 0; 1]
  /\ weights "step_2"%string = Some [0; 0; 1; 0; 0]
  /\ weights "simpson"%string = Some [1 # 3; 4 # 3; 2 # 4; 4 # 3; 1 # 3]
  /\ Forall (fun rule => exists ws,
               weights rule = Some ws /\ length ws = Z.to_nat (4 + 1))
       ["uniform"; "trapezoidal"; "final"; "step_2"; "simpson"]%string.
Proof.
  cbv zeta. repeat split; try reflexivity.
  repeat constructor; eexists; (split; [reflexivity|reflexivity]).
Qed.

End Transient.

(** *** Sums of vectors up to the equality of rationals *)

Section VectorSums.

Local Abbreviation vadd := (zip_with Qplus).

Lemma vec_eq_refl v : vec_eq v v.
Proof. induction v; constructor; [reflexivity|assumption]. Qed.

Lemma vec_eq_trans u v w : vec_eq u v -> vec_eq v w -> vec_eq u w.
Proof.
  intros H. revert w. induction H as [|x y u v Hxy _ IH]; intros w Hw;
    inversion Hw as [|y' z v' w' Hyz Hvw]; subst; constructor.
  - rewrite Hxy. exact Hyz.
  - apply IH, Hvw.
Qed.

Lemma vec_eq_length u v : vec_eq u v -> length u = length v.
Proof. apply Forall2_length. Qed.

Lemma vadd_assoc a : forall b c,
  vec_eq (vadd (vadd a b) c) (vadd a (vadd b c)).
Proof.
  induction a as [|x a IH]; intros [|y b] [|z c]; cbn; constructor;
    [ring|apply IH].
Qed.

Lemma vadd_zero_r a : vec_eq a (vadd a (Zero (length a))).
Proof. induction a as [|x a IH]; cbn; constructor; [ring|exact IH]. Qed.

Lemma vadd_length a b : length a = length b -> length (vadd a b) = length a.
Proof. intros H. rewrite length_zip_with. lia. Qed.

Lemma add_same_length a b :
  length a = length b -> add a b = Some (vadd a b).
Proof. intros H. unfold add. rewrite H, Nat.eqb_refl. reflexivity. Qed.

Lemma Zero_length n : length (Zero n) = n.
Proof. apply repeat_length. Qed.

Lemma as_matrix_vec_eq u v : vec_eq u v -> mat_eq (as_matrix u) (as_matrix v).
Proof.
  intros H. induction H; cbn; constructor; [|assumption].
  constructor; [assumption|constructor].
Qed.

End VectorSums.

(** *** SumObjective *)

Section Sum.

Import SumObjective.

Local Abbreviation vadd := (zip_with Qplus).

Lemma value_from acc objs :
  fold_left (fun val obj => val + Objective.value obj) objs acc
  == acc + sum_of_values objs.
Proof.
  revert acc. induction objs as [|obj objs IH]; intros acc; cbn.
  - ring.
  - rewrite IH. unfold sum_of_values. ring.
Qed.

(** [SumObjective::value] is the sum of the values of the sub-objectives. *)
Lemma value_is_sum objs : SumObjective.value objs == sum_of_values objs.
Proof. unfold SumObjective.value. rewrite value_from. ring. Qed.

Lemma gradient_from (param : DesignParameter) objs :
  Forall (fun obj =>
            length (Objective.compute_partial_gradient obj param) = full_dim param)
         objs ->
  forall acc, length acc = full_dim param ->
  exists g s,
    foldl (fun grad obj =>
             g ← grad; add g (Objective.compute_partial_gradient obj param))
          (Some acc) objs = Some g
    /\ sum_of_gradients objs param = Some s
    /\ length s = full_dim param
    /\ vec_eq g (vadd acc s).
Proof.
  induction 1 as [|obj objs Hobj _ IH]; intros acc Hacc; cbn.
  - exists acc, (Zero (full_dim param)). repeat split; auto using Zero_length.
    rewrite <- Hacc. apply vadd_zero_r.
  - rewrite add_same_length by congruence.
    destruct (IH (vadd acc (Objective.compute_partial_gradient obj param)))
      as (g & s & Eg & Es & Ls & Eq).
    { rewrite vadd_length; congruence. }
    exists g, (vadd (Objective.compute_partial_gradient obj param) s).
    unfold sum_of_gradients in Es |- *. cbn. rewrite Es. cbn.
    rewrite add_same_length by congruence.
    repeat split; auto.
    + rewrite vadd_length; congruence.
    + eapply vec_eq_trans; [exact Eq|apply vadd_assoc].
Qed.

(** X19: [SumObjective::compute_partial_gradient] is the coefficient-wise
    sum of the gradients of the sub-objectives, each of [full_dim]
    entries. *)
Lemma gradient_is_sum (param : DesignParameter) objs :
  Forall (fun obj =>
            length (Objective.compute_partial_gradient obj param) = full_dim param)
         objs ->
  exists g s,
    SumObjective.compute_partial_gradient objs param = Some g
    /\ sum_of_gradients objs param = Some s
    /\ length g = full_dim param
    /\ vec_eq g s.
Proof.
  intros H.
  destruct (gradient_from param objs H (Zero (full_dim param)) (Zero_length _))
    as (g & s & Eg & Es & Ls & Eq).
  exists g, s. repeat split; auto.
  - apply vec_eq_length in Eq. rewrite Eq, vadd_length; rewrite Zero_length; auto.
  - eapply vec_eq_trans; [exact Eq|].
    rewrite <- Ls. clear. induction s; cbn; constructor; [ring|assumption].
Qed.

Lemma as_matrix_rows v : rows (as_matrix v) = length v.
Proof. unfold rows, as_matrix. apply length_map. Qed.

Lemma as_matrix_one_column v :
  forallb (fun r => (length r =? 1)%nat) (as_matrix v) = true.
Proof. induction v; cbn; auto. Qed.

Lemma as_matrix_column v : map (fun r => hd 0 r) (as_matrix v) = v.
Proof.
  unfold as_matrix. induction v as [|x v IH]; [reflexivity|].
  cbn [map hd]. f_equal. exact IH.
Qed.

Lemma add_assign_as_matrix r v :
  length v = length r -> add_assign_matrix r (as_matrix v) = Some (vadd r v).
Proof.
  intros H. unfold add_assign_matrix.
  rewrite as_matrix_rows, H, Nat.eqb_refl, as_matrix_one_column, as_matrix_column.
  reflexivity.
Qed.

Lemma zip_as_matrix_shape a : forall b,
  forallb (fun rr : VectorXd * VectorXd => (length rr.1 =? length rr.2)%nat)
    (zip (as_matrix a) (as_matrix b)) = true.
Proof.
  induction a as [|x a IH]; intros [|y b]; try reflexivity.
  simpl. apply IH.
Qed.

Lemma zip_with_as_matrix a : forall b,
  zip_with (zip_with Qplus) (as_matrix a) (as_matrix b) = as_matrix (vadd a b).
Proof.
  induction a as [|x a IH]; intros [|y b]; try reflexivity.
  simpl. f_equal. apply IH.
Qed.

Lemma add_matrix_as_matrix u v :
  length u = length v ->
  add_matrix (as_matrix u) (as_matrix v) = Some (as_matrix (vadd u v)).
Proof.
  intros H. unfold add_matrix.
  rewrite !as_matrix_rows, H, Nat.eqb_refl, zip_as_matrix_shape,
    zip_with_as_matrix.
  reflexivity.
Qed.

Lemma ZeroMatrix_one_column n : ZeroMatrix n 1 = as_matrix (Zero n).
Proof. induction n; cbn; [reflexivity|]. f_equal. assumption. Qed.

Lemma adjoint_rhs_from (state : State) objs :
  Forall (fun obj => exists v,
            Objective.compute_adjoint_rhs obj state = as_matrix v
            /\ length v = ndof state)
         objs ->
  forall acc : VectorXd, length acc = ndof state ->
  exists g s,
    foldl (fun rhs obj =>
             r ← rhs; add_assign_matrix r (Objective.compute_adjoint_rhs obj state))
          (Some acc) objs = Some g
    /\ sum_of_adjoint_rhs 1 objs state = Some (as_matrix s)
    /\ length s = ndof state
    /\ vec_eq g (vadd acc s).
Proof.
  induction 1 as [|obj objs (v & Ev & Lv) _ IH]; intros acc Hacc; cbn.
  - exists acc, (Zero (ndof state)). unfold sum_of_adjoint_rhs. cbn.
    rewrite ZeroMatrix_one_column. repeat split; auto using Zero_length.
    rewrite <- Hacc. apply vadd_zero_r.
  - rewrite Ev, add_assign_as_matrix by congruence.
    destruct (IH (vadd acc v)) as (g & s & Eg & Es & Ls & Eq).
    { rewrite vadd_length; congruence. }
    exists g, (vadd v s).
    unfold sum_of_adjoint_rhs in Es |- *. cbn. rewrite Es. cbn.
    rewrite add_matrix_as_matrix by congruence.
    repeat split; auto.
    + rewrite vadd_length; congruence.
    + eapply vec_eq_trans; [exact Eq|apply vadd_assoc].
Qed.

(** X20: when every sub-objective returns one column of [ndof] rows,
    [SumObjective::compute_adjoint_rhs] is their coefficient-wise sum. *)
Lemma adjoint_rhs_is_sum_one_column (state : State) objs :
  Forall (fun obj => exists v,
            Objective.compute_adjoint_rhs obj state = as_matrix v
            /\ length v = ndof state)
         objs ->
  exists m s,
    SumObjective.compute_adjoint_rhs objs state = Some m
    /\ sum_of_adjoint_rhs 1 objs state = Some s
    /\ mat_eq m s.
Proof.
  intros H.
  destruct (adjoint_rhs_from state objs H (Zero (ndof state)) (Zero_length _))
    as (g & s & Eg & Es & Ls & Eq).
  exists (as_matrix g), (as_matrix s). unfold SumObjective.compute_adjoint_rhs.
  rewrite Eg. repeat split; auto. apply as_matrix_vec_eq.
  eapply vec_eq_trans; [exact Eq|].
  rewrite <- Ls. clear. induction s; cbn; constructor; [ring|assumption].
Qed.

(** A sub-objective whose right-hand side has a row that is not of one
    column stops the accumulation. *)
Lemma adjoint_rhs_rejects_columns (state : State) objs obj :
  In obj objs ->
  forallb (fun r => (length r =? 1)%nat) (Objective.compute_adjoint_rhs obj state)
  = false ->
  SumObjective.compute_adjoint_rhs objs state = None.
Proof.
  intros Hin Hcols. unfold SumObjective.compute_adjoint_rhs.
  generalize (Some (Zero (ndof state))) as acc.
  assert (Stuck : forall l : list Objective,
             foldl (fun rhs o =>
                      r ← rhs; add_assign_matrix r (Objective.compute_adjoint_rhs o state))
                   None l = None).
  { induction l; cbn; auto. }
  induction objs as [|o objs IH]; intros acc; [destruct Hin|].
  cbn [foldl]. destruct Hin as [->|Hin].
  - destruct acc as [r|]; cbn; [|rewrite Stuck; reflexivity].
    unfold add_assign_matrix. rewrite Hcols, andb_false_r, Stuck. reflexivity.
  - rewrite IH by assumption. reflexivity.
Qed.

(** C6: on a transient sub-objective over two time steps, whose adjoint
    right-hand side has one row and two columns (one per time step),
    [SumObjective::compute_adjoint_rhs] does not produce the
    coefficient-wise sum: adding the matrix to its one-column accumulator
    trips the size assertion.  The sum itself is the matrix of one row and
    two columns. *)
Theorem sum_adjoint_rhs_one_column_only :
  Objective.compute_adjoint_rhs ToyObjective.two_steps ToyObjective.one_dof
    = [[0 * 1; 1 * 1]]
  /\ sum_of_adjoint_rhs 2 [ToyObjective.two_steps] ToyObjective.one_dof
     = Some [[0 * 1 + 0; 1 * 1 + 0]]
  /\ SumObjective.compute_adjoint_rhs [ToyObjective.two_steps] ToyObjective.one_dof
     = None.
Proof. repeat split. Qed.

End Sum.

(** *** VolumePaneltyObjective *)

Section VolumePenalty.

Import VolumePaneltyObjective.

Lemma Qsquare (x : Q) : x ^ 2 = x * x.
Proof. reflexivity. Qed.

Lemma square_le (u v : Q) :
  0 <= u <= v \/ v <= u <= 0 -> 0 <= u * u /\ u * u <= v * v.
Proof. intros [H|H]; nra. Qed.

Lemma square_small (t d e : Q) :
  - d < t < d -> d <= 1 -> d <= e -> t * t < e.
Proof. intros. nra. Qed.

Lemma product_small (c d T A eps : Q) :
  - (2 * T) <= c <= 2 * T -> - A <= d <= A -> 0 <= T ->
  T * (2 * (A + 1)) < eps -> - eps < c * d < eps.
Proof. intros. nra. Qed.

Lemma nth_scale c v : forall k, nth k (scale c v) 0 == c * nth k v 0.
Proof.
  induction v as [|x v IH]; intros [|k]; cbn; try ring. apply IH.
Qed.

Lemma nth_Zero n k : nth k (Zero n) 0 = 0.
Proof. apply nth_repeat. Qed.

Variables lo hi : Q.
Variable dvol : VectorXd.
Variable param : DesignParameter.
Hypothesis bound_ordered : lo <= hi.

Local Abbreviation penalty := (fun vol => value (make lo hi vol dvol)).
Local Abbreviation gradient :=
  (fun vol => compute_partial_gradient (make lo hi vol dvol) param).

Lemma penalty_inside vol :
  lo <= vol <= hi -> penalty vol = 0 /\ gradient vol = Zero (length dvol).
Proof.
  intros [L H]. unfold value, compute_partial_gradient. cbn.
  apply Qltb_ge in L, H. rewrite L, H. auto.
Qed.

Lemma penalty_below vol :
  vol < lo ->
  penalty vol = (vol - lo) ^ 2 /\ gradient vol = scale (2 * (vol - lo)) dvol.
Proof.
  intros L. unfold value, compute_partial_gradient. cbn.
  apply Qltb_lt in L. rewrite L. auto.
Qed.

Lemma penalty_above vol :
  hi < vol ->
  penalty vol = (vol - hi) ^ 2 /\ gradient vol = scale (2 * (vol - hi)) dvol.
Proof.
  intros H. unfold value, compute_partial_gradient. cbn.
  assert (L : lo <= vol) by lra. apply Qltb_ge in L. apply Qltb_lt in H.
  rewrite L, H. auto.
Qed.

(** Around either bound the penalty is at most the squared distance to
    the bound. *)
Lemma penalty_near a x :
  a = lo \/ a = hi -> 0 <= penalty x /\ penalty x <= (x - a) * (x - a).
Proof.
  intros Ha.
  destruct (Qlt_le_dec x lo) as [L|L]; [|destruct (Qlt_le_dec hi x) as [H|H]].
  - destruct (penalty_below x L) as [-> _]. rewrite Qsquare.
    destruct Ha as [->| ->]; apply square_le; lra.
  - destruct (penalty_above x H) as [-> _]. rewrite Qsquare.
    destruct Ha as [->| ->]; apply square_le; lra.
  - destruct (penalty_inside x (conj L H)) as [-> _].
    split; [lra|]. set (t := x - a). nra.
Qed.

Lemma penalty_continuous a : a = lo \/ a = hi -> continuous_at penalty a.
Proof.
  intros Ha eps Heps. exists (Qmin 1 eps).
  split; [apply Q.min_glb_lt; lra|]. intros x Hx.
  apply Qabs_Qlt_condition in Hx.
  assert (Za : penalty a = 0).
  { apply penalty_inside. destruct Ha as [->| ->]; lra. }
  rewrite Za. destruct (penalty_near a x Ha) as [Lo Hi].
  assert (Sq : (x - a) * (x - a) < eps).
  { apply square_small with (d := Qmin 1 eps);
      [exact Hx|apply Q.le_min_l|apply Q.le_min_r]. }
  apply Qabs_Qlt_condition. lra.
Qed.

(** Around either bound a coefficient of the gradient is the
    coefficient of [dvol] times a factor of at most twice the distance
    to the bound. *)
Lemma gradient_near a x k T :
  a = lo \/ a = hi -> - T < x - a < T ->
  exists c, nth k (gradient x) 0 == c * nth k dvol 0 /\ - (2 * T) <= c <= 2 * T.
Proof.
  intros Ha HT.
  destruct (Qlt_le_dec x lo) as [L|L]; [|destruct (Qlt_le_dec hi x) as [H|H]].
  - destruct (penalty_below x L) as [_ ->]. exists (2 * (x - lo)).
    split; [apply nth_scale|]. destruct Ha as [->| ->]; lra.
  - destruct (penalty_above x H) as [_ ->]. exists (2 * (x - hi)).
    split; [apply nth_scale|]. destruct Ha as [->| ->]; lra.
  - destruct (penalty_inside x (conj L H)) as [_ ->]. exists 0.
    rewrite nth_Zero. split; [ring|lra].
Qed.

Lemma gradient_continuous a k :
  a = lo \/ a = hi -> continuous_at (fun vol => nth k (gradient vol) 0) a.
Proof.
  intros Ha eps Heps.
  set (A := Qabs (nth k dvol 0)).
  assert (Apos : 0 <= A) by apply Qabs_nonneg.
  assert (Ad : - A <= nth k dvol 0 <= A)
    by (apply Qabs_Qle_condition; apply Qle_refl).
  exists (eps / (4 * (A + 1))).
  assert (Dpos : 0 < 4 * (A + 1)) by lra.
  assert (Delta : eps / (4 * (A + 1)) * (2 * (A + 1)) == eps * (1 # 2))
    by (field; lra).
  assert (Tpos : 0 < eps / (4 * (A + 1))).
  { apply Qlt_shift_div_l; lra. }
  split; [exact Tpos|]. intros x Hx. apply Qabs_Qlt_condition in Hx.
  assert (Za : nth k (gradient a) 0 = 0).
  { destruct (penalty_inside a) as [_ ->]; [destruct Ha as [->| ->]; lra|].
    apply nth_Zero. }
  rewrite Za.
  destruct (gradient_near a x k _ Ha Hx) as (c & -> & Hc).
  apply Qabs_Qlt_condition.
  assert (P : - eps < c * nth k dvol 0 < eps).
  { apply product_small with (T := eps / (4 * (A + 1))) (A := A);
      [exact Hc|exact Ad|apply Qlt_le_weak, Tpos|rewrite Delta; lra]. }
  lra.
Qed.

(** C7: for a bound [lo <= hi], the penalty is 0 and its gradient the
    zero vector for a volume inside the bound, [(vol - lo)^2] with gradient
    [2 (vol - lo) dvol] below it and [(vol - hi)^2] with gradient
    [2 (vol - hi) dvol] above it; the penalty and every coefficient of the
    gradient are continuous functions of the volume at [lo] and at [hi]. *)
Theorem volume_penalty_soft_bound :
  (forall vol, lo <= vol <= hi ->
     penalty vol = 0 /\ gradient vol = Zero (length dvol))
  /\ (forall vol, vol < lo ->
        penalty vol = (vol - lo) ^ 2
        /\ gradient vol = scale (2 * (vol - lo)) dvol)
  /\ (forall vol, hi < vol ->
        penalty vol = (vol - hi) ^ 2
        /\ gradient vol = scale (2 * (vol - hi)) dvol)
  /\ continuous_at penalty lo
  /\ continuous_at penalty hi
  /\ (forall k, continuous_at (fun vol => nth k (gradient vol) 0) lo)
  /\ (forall k, continuous_at (fun vol => nth k (gradient vol) 0) hi).
Proof.
  split; [exact penalty_inside|]. split; [exact penalty_below|].
  split; [exact penalty_above|].
  split; [apply penalty_continuous; auto|].
  split; [apply penalty_continuous; auto|].
  split; intros k; apply gradient_continuous; auto.
Qed.

End VolumePenalty.

Lemma volume_penalty_soft_bound_witness :
  let penalty := fun vol =>
    VolumePaneltyObjective.value
      (VolumePaneltyObjective.make 1 2 vol [1; 2]) in
  let gradient := fun vol =>
    VolumePaneltyObjective.compute_partial_gradient
      (VolumePaneltyObjective.make 1 2 vol [1; 2]) ToyObjective.shape_parameter in
  (penalty (3 # 2) = 0 /\ gradient (3 # 2) = Zero 2)
  /\ (penalty 0 = (0 - 1) ^ 2 /\ gradient 0 = scale (2 * (0 - 1)) [1; 2])
  /\ (penalty 5 = (5 - 2) ^ 2 /\ gradient 5 = scale (2 * (5 - 2)) [1; 2])
  /\ continuous_at penalty 1
  /\ continuous_at penalty 2
  /\ continuous_at (fun vol => nth 1 (gradient vol) 0) 1
  /\ continuous_at (fun vol => nth 1 (gradient vol) 0) 2.
Proof.
  destruct (volume_penalty_soft_bound 1 2 [1; 2] ToyObjective.shape_parameter)
    as (Inside & Below & Above & Clo & Chi & Glo & Ghi).
  - discriminate.
  - cbv zeta. split; [apply (Inside (3 # 2)); split; discriminate|].
    split; [apply (Below 0); reflexivity|].
    split; [apply (Above 5); reflexivity|].
    split; [exact Clo|]. split; [exact Chi|].
    split; [exact (Glo 1%nat)|exact (Ghi 1%nat)].
Defined.

(** *** BarycenterTargetObjective *)

Section Barycenter.

Import BarycenterTargetObjective.

Lemma squaredNorm_from acc v :
  fold_left (fun acc x => acc + x * x) v acc
  == acc + foldr (fun x acc => x * x + acc) 0 v.
Proof.
  revert acc. induction v as [|x v IH]; intros acc; cbn; [ring|].
  rewrite IH. ring.
Qed.

Lemma squaredNorm_foldr v :
  squaredNorm v == foldr (fun x acc => x * x + acc) 0 v.
Proof. unfold squaredNorm. rewrite squaredNorm_from. ring. Qed.

(** The squares of the differences between [c d] and the entries of
    [row], which sit in a vector after the entries [pre]. *)
Lemma squares_of_differences (c : nat -> Q) row : forall pre,
  foldr (fun x acc => x * x + acc) 0
    (zip_with Qminus (map c (seq (length pre) (length row))) row)
  == foldr (fun d acc => (c d - default 0 ((pre ++ row) !! d)) ^ 2 + acc) 0
       (seq (length pre) (length row)).
Proof.
  induction row as [|x row IH]; intros pre; [reflexivity|].
  cbn [length seq map zip_with foldr].
  rewrite list_lookup_middle by reflexivity. cbn [default].
  specialize (IH (pre ++ [x])). rewrite length_app in IH. cbn [length] in IH.
  rewrite Nat.add_1_r, <- app_assoc in IH. cbn [app] in IH.
  rewrite IH, Qsquare. reflexivity.
Qed.

Lemma Qeqb_eq x y : Qeqb x y = true <-> x == y.
Proof. unfold Qeqb, Qeq. apply Z.eqb_eq. Qed.

Lemma quotient_Some x y : ~ y == 0 -> quotient x y = Some (x / y).
Proof.
  intros H. unfold quotient. destruct (Qeqb y 0) eqn:E; [|reflexivity].
  apply Qeqb_eq in E. contradiction.
Qed.


Lemma mapM_total {A B : Type} (f : A -> option B) (g : A -> B) l :
  (forall x, f x = Some (g x)) -> mapM f l = Some (map g l).
Proof.
  intros H. induction l as [|x l IH]; [reflexivity|].
  cbn. rewrite H. cbn. rewrite IH. reflexivity.
Qed.

(** Over a volume that is not zero the barycenter is the vector of the
    quotients. *)
Lemma get_barycenter_Some (this : t) :
  ~ objv this == 0 ->
  get_barycenter this = Some (map (centroid this) (seq 0 (dim_ this))).
Proof.
  intros V. unfold get_barycenter. cbv zeta. apply mapM_total.
  intros d. apply quotient_Some, V.
Qed.

(** The target vector the code subtracts holds the stored target, for a
    target with rows for the time steps, or in one dimension. *)
Lemma get_target_stored (this : t) :
  Forall (fun r => length r = dim_ this) (target_ this) ->
  cols (target_ this) = dim_ this ->
  ((1 < rows (target_ this))%nat -> (time_step_ this < rows (target_ this))%nat) ->
  ((rows (target_ this) <= 1)%nat -> dim_ this = 1%nat) ->
  exists row,
    get_target this = Some row
    /\ length row = dim_ this
    /\ forall d, stored_target this d = default 0 (row !! d).
Proof.
  intros Wf Cols Step One. unfold get_target, stored_target. cbv zeta.
  rewrite Cols, Nat.eqb_refl. cbn [negb].
  destruct (1 <? rows (target_ this))%nat eqn:Many.
  - apply Nat.ltb_lt in Many. specialize (Step Many).
    destruct (lookup_lt_is_Some_2 (target_ this) (time_step_ this) Step)
      as [row Hrow].
    exists row. split; [exact Hrow|]. split.
    + eapply Forall_lookup_1 in Wf; [exact Wf|exact Hrow].
    + intros d. unfold MatrixXd, VectorXd in *. rewrite Hrow. reflexivity.
  - apply Nat.ltb_ge in Many. rewrite (One Many) in *. cbn [Nat.eqb].
    unfold rows in Many.
    destruct (target_ this) as [|row [|row' rest]] eqn:T; cbn in Many; [| |lia].
    + cbn in Cols. discriminate Cols.
    + exists row. cbn [concat]. rewrite app_nil_r. cbn in Cols.
      repeat split; auto.
Qed.

(** A target of one row of several coefficients, or of none, is not
    converted into a vector. *)
Lemma get_target_one_row (this : t) :
  (rows (target_ this) <= 1)%nat -> dim_ this <> 1%nat ->
  get_target this = None.
Proof.
  intros One Dim. unfold get_target.
  destruct (cols (target_ this) =? dim_ this)%nat eqn:C; [|reflexivity].
  apply Nat.eqb_eq in C. cbn [negb].
  destruct (1 <? rows (target_ this))%nat eqn:Many;
    [apply Nat.ltb_lt in Many; lia|].
  destruct (cols (target_ this) =? 1)%nat eqn:C1; [|reflexivity].
  apply Nat.eqb_eq in C1. congruence.
Qed.

(** X30: with a volume that is not zero and a target matrix of [dim_]
    columns that has a row per time step, the current one among them (or,
    in one dimension, a single row), [value()] is the squared Euclidean
    norm of centroid minus target, the centroid's coordinate [d] being the
    value of the position objective of axis [d] over the value of the
    volume objective, and the target being the row of the time step. *)
Theorem barycenter_value_is_squared_distance (this : t) :
  ~ objv this == 0 ->
  Forall (fun r => length r = dim_ this) (target_ this) ->
  cols (target_ this) = dim_ this ->
  ((1 < rows (target_ this))%nat -> (time_step_ this < rows (target_ this))%nat) ->
  ((rows (target_ this) <= 1)%nat -> dim_ this = 1%nat) ->
  exists v,
    value this = Some v
    /\ v == squared_distance this (stored_target this).
Proof.
  intros V Wf Cols Step One.
  destruct (get_target_stored this Wf Cols Step One) as (row & Hrow & Len & Stored).
  unfold value. rewrite (get_barycenter_Some this V), Hrow.
  cbn [mbind option_bind].
  unfold sub. rewrite length_map, length_seq, Len, Nat.eqb_refl.
  cbn [fmap option_fmap option_map]. eexists. split; [reflexivity|].
  rewrite squaredNorm_foldr. unfold squared_distance.
  rewrite <- Len.
  rewrite (squares_of_differences (centroid this) row []).
  cbn [length app]. rewrite Len.
  generalize (seq 0 (dim_ this)) as ds.
  induction ds as [|d ds IH]; cbn [foldr]; [reflexivity|].
  rewrite IH, Stored. reflexivity.
Qed.

End Barycenter.

(** On the unit square over two time steps, with the origin as the target
    of the current step, the value is the squared distance 1/2 of the
    centroid (1/2, 1/2) to the origin. *)
Lemma barycenter_value_is_squared_distance_witness :
  exists v,
    BarycenterTargetObjective.value ToyBarycenter.per_step = Some v
    /\ v == 1 # 2.
Proof.
  destruct (barycenter_value_is_squared_distance ToyBarycenter.per_step)
    as (v & Hv & Eq).
  - discriminate.
  - repeat constructor.
  - reflexivity.
  - cbn. lia.
  - cbn. lia.
  - exists v. split; [exact Hv|]. rewrite Eq. reflexivity.
Defined.

(** C8: on the unit square with the origin as its one target point, a
    target matrix of one row and two columns, [value()] does not return
    the squared distance 1/2 of the centroid (1/2, 1/2) to the target:
    [get_target] returns the matrix [target_] where a vector is expected,
    and the conversion of a matrix of one row and two columns into a
    vector fails.  With the same point as the row of the current time
    step, in a target of a row per time step, the value is that squared
    distance. *)
Theorem barycenter_single_target_fails :
  BarycenterTargetObjective.get_barycenter ToyObjective.unit_square
    = Some [(1 # 2) / 1; (1 # 2) / 1]
  /\ BarycenterTargetObjective.squared_distance ToyObjective.unit_square
       (BarycenterTargetObjective.stored_target ToyObjective.unit_square)
     == 1 # 2
  /\ BarycenterTargetObjective.get_target ToyObjective.unit_square = None
  /\ BarycenterTargetObjective.value ToyObjective.unit_square = None
  /\ BarycenterTargetObjective.get_target ToyBarycenter.per_step = Some [0; 0]
  /\ BarycenterTargetObjective.value ToyBarycenter.per_step
     = Some (0 + ((1 # 2) / 1 - 0) * ((1 # 2) / 1 - 0)
               + ((1 # 2) / 1 - 0) * ((1 # 2) / 1 - 0)).
Proof. repeat split. Qed.

(** *** TargetObjective::set_reference *)

(** C5: on a simulation with one selected element and a reference with
    two, the counts differ, and [set_reference] does not fail: it logs
    the mismatch as an error, goes on to build the correspondence map and
    returns. *)
Theorem set_reference_mismatch_is_logged :
  TargetObjective.interested_elements (ToyObjective.mesh 1 7) ∅
    = ({[7%Z := [0%Z]]}, 1%Z)
  /\ TargetObjective.interested_elements (ToyObjective.mesh 2 7) ∅
    = ({[7%Z := [0%Z; 1%Z]]}, 2%Z)
  /\ TargetObjective.set_reference
       (ToyObjective.mesh 1 7) (ToyObjective.mesh 2 7) ∅ ∅
     = Some ({[0%Z := 0%Z]},
             [TargetObjective.log_error TargetObjective.msg_mismatch]).
Proof. repeat split; vm_compute; reflexivity. Qed.

(** Whenever the counts differ, [set_reference] either returns normally,
    the mismatch logged as an error, or reads past the end of a vector of
    reference elements; it raises nothing. *)
Lemma set_reference_mismatch_not_raised state_ target_state ids e_to_ref_e_ :
  (TargetObjective.interested_elements state_ ids).2
    <> (TargetObjective.interested_elements target_state ids).2 ->
  TargetObjective.set_reference state_ target_state ids e_to_ref_e_ = None
  \/ exists m,
       TargetObjective.set_reference state_ target_state ids e_to_ref_e_
       = Some (m, [TargetObjective.log_error TargetObjective.msg_mismatch]).
Proof.
  unfold TargetObjective.set_reference.
  destruct (TargetObjective.interested_elements target_state ids) as [ref ref_count].
  destruct (TargetObjective.interested_elements state_ ids) as [own count].
  cbn [snd]. intros Hne. apply Z.eqb_neq in Hne. rewrite Hne. cbn [negb].
  match goal with
  | |- context [foldl ?f ?a ?l] => destruct (foldl f a l) as [m|]
  end; cbn; eauto.
Qed.

(** With the counts the other way round the loop that builds the map reads
    past the end of the reference's vector of elements. *)
Lemma set_reference_mismatch_reads_out_of_bounds :
  TargetObjective.set_reference
    (ToyObjective.mesh 2 7) (ToyObjective.mesh 1 7) ∅ ∅ = None.
Proof. vm_compute. reflexivity. Qed.

(** With equal counts the trace line is logged instead. *)
Lemma set_reference_matching :
  TargetObjective.set_reference
    (ToyObjective.mesh 2 7) (ToyObjective.mesh 2 7) ∅ ∅
  = Some ({[0%Z := 0%Z; 1%Z := 1%Z]},
          [TargetObjective.log_trace TargetObjective.msg_matching 2]).
Proof. vm_compute. reflexivity. Qed.

(** *** TargetObjective: the reference element *)

Section Target.

Import TargetObjective.

Variable ElementBases : Type.
Variable eval_geom_mapping : ElementBases -> MatrixXd -> MatrixXd.
Variable interpolate_at_local_vals :
  Z -> MatrixXd -> VectorXd -> MatrixXd * MatrixXd.

Local Abbreviation reference :=
  (reference_at ElementBases eval_geom_mapping interpolate_at_local_vals).

(** An element that the correspondence map sends somewhere is compared
    with the reference element the map gives. *)
Lemma e_ref_of_mapped (e_to_ref_e_ : gmap Z Z) (e e_ref : Z) :
  e_to_ref_e_ !! e = Some e_ref -> e_ref_of e_to_ref_e_ e = e_ref.
Proof. unfold e_ref_of. intros ->. reflexivity. Qed.


End Target.


(** *** ComplianceObjective::compute_partial_gradient *)

Section Compliance.

Import ComplianceObjective.

Variable pow : Q -> Q -> Q.

(** On its shape parameter the method calls itself with the same
    argument: no depth of calls yields a result. *)
Lemma compliance_shape_diverges (this : t) (param : DesignParameter) :
  is_param param (elastic_param_ this) = false ->
  is_param param (shape_param_ this) = true ->
  forall fuel, compute_partial_gradient pow this fuel param = OutOfFuel.
Proof.
  intros NotElastic Shape fuel.
  induction fuel as [|fuel IH]; cbn [compute_partial_gradient]; [reflexivity|].
  rewrite NotElastic, Shape, IH. reflexivity.
Qed.

(** On its elastic parameter the method throws. *)
Lemma compliance_elastic_throws (this : t) (param : DesignParameter) fuel :
  is_param param (elastic_param_ this) = true ->
  compute_partial_gradient pow this (S fuel) param
  = Thrown (runtime_error "Not implemented!").
Proof. intros E. cbn [compute_partial_gradient]. rewrite E. reflexivity. Qed.

(** On a parameter that is none of its three the method returns the zero
    vector of [full_dim] entries. *)
Lemma compliance_other_zero (this : t) (param : DesignParameter) fuel :
  is_param param (elastic_param_ this) = false ->
  is_param param (shape_param_ this) = false ->
  is_param param (topo_param_ this) = false ->
  compute_partial_gradient pow this (S fuel) param = Ret (Zero (full_dim param)).
Proof.
  intros E S T. cbn [compute_partial_gradient]. rewrite E, S, T. reflexivity.
Qed.

Lemma add_to_coeff_length i x v v' :
  add_to_coeff i x v = Some v' -> length v' = length v.
Proof.
  unfold add_to_coeff. destruct (v !! i); cbn; [|discriminate].
  intros [= <-]. apply length_insert.
Qed.

Lemma add_point_length (this : t) e vals q term term' :
  add_point pow this e vals q term = Ret term' -> length term' = length term.
Proof.
  unfold add_point. destruct (lambda_mu this e q) as [lambda mu].
  repeat match goal with
         | |- (?r ≫= _) = Ret _ -> _ =>
             destruct r; cbn [mbind result_bind]; try discriminate
         end.
  match goal with
  | |- checked _ ?o = _ -> _ => destruct o eqn:E; cbn; [|discriminate]
  end.
  intros [= <-]. eapply add_to_coeff_length, E.
Qed.

(** A fold of steps that keep the size of the vector keeps it. *)
Lemma foldl_keeps_length {B : Type}
    (g : result VectorXd -> B -> result VectorXd) :
  (forall acc b t', g acc b = Ret t' ->
     exists t0, acc = Ret t0 /\ length t' = length t0) ->
  forall l acc t', foldl g acc l = Ret t' ->
    exists t0, acc = Ret t0 /\ length t' = length t0.
Proof.
  intros Step. induction l as [|b l IH]; intros acc t'; cbn [foldl].
  - intros ->. eauto.
  - intros H. apply IH in H as (t1 & E1 & L1).
    apply Step in E1 as (t0 & E0 & L0). exists t0. split; [exact E0|lia].
Qed.

Lemma topology_term_length (this : t) term term' :
  topology_term pow this term = Ret term' -> length term' = length term.
Proof.
  unfold topology_term. intros H.
  apply foldl_keeps_length in H as (t0 & [= <-] & L); [exact L|].
  intros acc [e vals] t' H'.
  apply foldl_keeps_length in H'; [exact H'|].
  intros acc' q t''. destruct acc' as [t1| | |]; cbn; try discriminate.
  intros Hp. apply add_point_length in Hp. eauto.
Qed.

(** X21: whenever [ComplianceObjective::compute_partial_gradient] returns
    a vector, the vector has [full_dim] entries. *)
Lemma compliance_gradient_size (this : t) (param : DesignParameter) :
  forall fuel v,
    compute_partial_gradient pow this fuel param = Ret v ->
    length v = full_dim param.
Proof.
  induction fuel as [|fuel IH]; intros v; cbn [compute_partial_gradient];
    [discriminate|].
  destruct (is_param param (elastic_param_ this)); [discriminate|].
  destruct (is_param param (shape_param_ this)).
  - destruct (compute_partial_gradient pow this fuel param) eqn:E; cbn;
      try discriminate.
    intros [= <-]. apply IH. reflexivity.
  - destruct (is_param param (topo_param_ this)).
    + intros H. apply topology_term_length in H. rewrite H. apply Zero_length.
    + intros [= <-]. apply Zero_length.
Qed.

End Compliance.

(** C9: on its shape parameter [ComplianceObjective::compute_partial_gradient]
    does not terminate: whatever the depth of calls allowed, the model has
    no result; on its elastic parameter it throws.  The sibling method of
    [StressObjective] returns a vector of [full_dim] entries on its shape
    parameter. *)
Theorem compliance_gradient_shape_never_returns :
  forall (pow : Q -> Q -> Q) (fuel : nat),
    ComplianceObjective.compute_partial_gradient pow ToyObjective.compliance
      fuel ToyObjective.shape_parameter = OutOfFuel
    /\ ComplianceObjective.compute_partial_gradient pow ToyObjective.compliance
         (S fuel) ToyObjective.elastic_parameter
       = Thrown (runtime_error "Not implemented!")
    /\ StressObjective.compute_partial_gradient pow ToyObjective.stress
         ToyObjective.shape_parameter
       = Ret (Zero (full_dim ToyObjective.shape_parameter)).
Proof.
  intros pow fuel. split; [|split].
  - apply compliance_shape_diverges; reflexivity.
  - apply compliance_elastic_throws; reflexivity.
  - reflexivity.
Qed.

End ObjectiveFacts.

(** ** ALSolver: further properties *)

Module ALSolverMore.

Import ALSolver ALSolverFacts.

Section Facts.

Context {W : Type}.
Variable rsqrt : Q -> Q.
Variable round : Q -> double.
Variable this : ALSolver W.
Variable nl_solver : NLSolver W.
Variable nl_problem : NLProblem W.

Local Abbreviation body := (al_body rsqrt round this nl_solver nl_problem).
Local Abbreviation loop := (al_loop rsqrt round this nl_solver nl_problem).
Local Abbreviation step := (al_step rsqrt round this nl_solver nl_problem).
Local Abbreviation rejected := (step_rejected nl_problem).
Local Abbreviation view := (same_view nl_problem).

(** X1: on an argument of the right sizes that is already accepted, and
    with a penalty form that is not null, [solve_al] does not enter its
    loop: it returns the argument unchanged after opening and closing the
    line search and rewriting the iteration budget, whatever the fuel.
    The minimizer is not called; of the forms only
    [pen_form->compute_error] is, for the initial error, which changes
    nothing. *)
Theorem solve_al_accepted_at_entry fuel w sol0 pen :
  let tmp := full_to_reduced nl_problem w sol0 in
  let w1 := line_search_begin nl_problem sol0 tmp w in
  length sol0 = full_size nl_problem w ->
  length tmp = reduced_size nl_problem w ->
  pen_form this = Some pen ->
  rejected w1 sol0 tmp = false ->
  solve_al rsqrt round this nl_solver nl_problem fuel w sol0
  = (set_stop_criteria_iterations nl_solver
       (stop_criteria_iterations nl_solver w) (line_search_end nl_problem w1),
     sol0, Returned).
Proof.
  intros tmp w1 Size Rsize Pen Acc. unfold solve_al, al_enter.
  rewrite Size, Nat.eqb_refl. cbn [negb]. fold tmp.
  rewrite Rsize, Nat.eqb_refl, Pen. cbn [negb]. fold w1.
  destruct fuel; cbn [al_loop sol tmp_sol]; rewrite Acc; reflexivity.
Qed.




(** X3: when [solve_al] returns normally the iteration budget of the
    minimizer is the one read at entry, for a minimizer whose budget reads
    back what was written. *)
Theorem solve_al_restores_iterations fuel w sol0 w' sol' :
  (forall n w0,
      stop_criteria_iterations nl_solver
        (set_stop_criteria_iterations nl_solver n w0) = n) ->
  solve_al rsqrt round this nl_solver nl_problem fuel w sol0 = (w', sol', Returned) ->
  stop_criteria_iterations nl_solver w' = stop_criteria_iterations nl_solver w.
Proof.
  intros Law. unfold solve_al.
  destruct (al_enter this nl_problem w sol0) as [[[w1 l0] ie]|why];
    [|discriminate].
  destruct (loop fuel sol0 ie w1 l0) as [[w2 l] st].
  destruct st as [[]| | |]; try discriminate.
  intros [= <- <-]. apply Law.
Qed.

(** X4: once the weight is not below [max_al_weight] (the comparison is
    false, as it also is on a NaN), no later iteration changes it. *)
Theorem al_weight_frozen isol ie st st' :
  Double.lt (al_weight st.2) (max_al_weight this) = false ->
  rtc (step isol ie) st st' ->
  al_weight st'.2 = al_weight st.2.
Proof.
  intros Max R. revert st' R.
  apply (rtc_ind_r (fun st' => al_weight st'.2 = al_weight st.2)); [reflexivity|].
  intros y z _ Hyz IH. inversion Hyz as [wa la wb lb G B]; subst. cbn in *.
  apply al_body_next in B as [_ (eta & _ & Next)].
  rewrite IH, Max, andb_false_r in Next. congruence.
Qed.

(** X5: the weight only takes the values of the sequence that starts at
    [initial_al_weight] and goes on by the product with [scaling]: after
    [n] outer iterations it is the initial weight multiplied [j] times by
    the scaling, for the number [j <= n] of iterations that raised it. *)
Theorem al_weight_is_scaled w sol0 w1 l0 ie :
  al_enter this nl_problem w sol0 = inl (w1, l0, ie) ->
  forall n st,
    nsteps (step sol0 ie) n (w1, l0) st ->
    exists j : nat,
      (j <= n)%nat
      /\ al_weight st.2
         = Nat.iter j (fun x => Double.mul round x (scaling this))
             (initial_al_weight this).
Proof.
  intros E. induction n as [|n IH]; intros st R.
  - inversion R; subst. exists 0%nat. split; [lia|].
    cbn. eapply al_enter_weight, E.
  - apply nsteps_inv_r in R as (y & R & Hstep).
    destruct (IH y R) as (j & Le & Eq).
    inversion Hstep as [wa la wb lb G B]; subst. clear Hstep. cbn in *.
    apply al_body_next in B as [_ (eta & _ & Next)].
    destruct (Double.lt eta (eta_tol this)
              && Double.lt (al_weight la) (max_al_weight this)).
    + exists (S j). split; [lia|]. rewrite Next, Eq. reflexivity.
    + exists j. split; [lia|]. congruence.
Qed.

Lemma view_refl w : view w w.
Proof. repeat split. Qed.

Lemma view_trans a b c : view a b -> view b c -> view a c.
Proof.
  intros (S1 & F1 & V1 & I1 & C1) (S2 & F2 & V2 & I2 & C2).
  repeat split; intros; congruence.
Qed.

Lemma view_rejected a b x y : view a b -> rejected a x y = rejected b x y.
Proof.
  intros (_ & _ & V & I & C). unfold step_rejected. rewrite V, I, C. reflexivity.
Qed.

Section Composition.

Hypothesis begin_keeps : forall x y w, view w (line_search_begin nl_problem x y w).
Hypothesis end_keeps : forall w, view w (line_search_end nl_problem w).
Hypothesis budget_keeps :
  forall n w, view w (set_stop_criteria_iterations nl_solver n w).
Hypothesis hook_keeps : forall weight w, view w (post_subsolve this weight w).
Hypothesis dual_keeps :
  forall lagr, lagr_form this = Some lagr ->
    forall x weight w, view w (update_lagrangian lagr x weight w).

Lemma al_body_view isol ie w l w' l' :
  body isol ie w l = (w', inl l') ->
  exists w_pre,
    tmp_sol l' = full_to_reduced nl_problem w_pre (sol l') /\ view w_pre w'.
Proof.
  unfold al_body. intros H.
  repeat break_match; try discriminate; injection H as <- <-;
    cbn [sol tmp_sol]; eexists; (split; [reflexivity|]);
    first
      [ eapply view_trans; [apply begin_keeps|apply hook_keeps]
      | eapply view_trans; [apply begin_keeps|];
        eapply view_trans; [eapply dual_keeps; reflexivity|apply hook_keeps] ].
Qed.

Lemma al_run_view w sol0 st :
  al_run rsqrt round this nl_solver nl_problem w sol0 st ->
  exists w_pre,
    tmp_sol st.2 = full_to_reduced nl_problem w_pre (sol st.2)
    /\ view w_pre st.1.
Proof.
  intros (w1 & l0 & ie & E & R). revert st R.
  apply (rtc_ind_r (fun st => exists w_pre,
           tmp_sol st.2 = full_to_reduced nl_problem w_pre (sol st.2)
           /\ view w_pre st.1)).
  - unfold al_enter in E. repeat break_match; try discriminate.
    injection E as <- <- <-. cbn. eexists. split; [reflexivity|].
    apply begin_keeps.
  - intros y z _ Hyz _. inversion Hyz as [wa la wb lb G B]; subst. cbn.
    eapply al_body_view, B.
Qed.

(** X6: [solve_reduced] called right after a normal return of [solve_al]
    passes its check of the step: when the line search, the budget, the
    hook and the dual update leave the answers of the problem alone, the
    solution [solve_al] returned is accepted in the world it returned. *)
Theorem solve_reduced_after_solve_al fuel w sol0 w' sol' :
  solve_al rsqrt round this nl_solver nl_problem fuel w sol0 = (w', sol', Returned) ->
  let tmp := full_to_reduced nl_problem w' sol' in
  rejected (line_search_begin nl_problem sol' tmp w') sol' tmp = false.
Proof.
  unfold solve_al. intros H.
  destruct (al_enter this nl_problem w sol0) as [[[w1 l0] ie]|why] eqn:E;
    [|discriminate].
  destruct (loop fuel sol0 ie w1 l0) as [[w2 l] st] eqn:L.
  destruct st as [[]| | |]; try discriminate. injection H as <- <-.
  apply al_loop_returned in L as [G R].
  assert (Inv : exists w_pre,
             tmp_sol l = full_to_reduced nl_problem w_pre (sol l) /\ view w_pre w2).
  { apply (al_run_view w sol0 (w2, l)). exists w1, l0, ie. split; assumption. }
  destruct Inv as (w_pre & T & V).
  set (w3 := set_stop_criteria_iterations nl_solver _ _).
  assert (V3 : view w2 w3).
  { eapply view_trans; [apply end_keeps|apply budget_keeps]. }
  cbv zeta.
  assert (F : full_to_reduced nl_problem w3 (sol l) = tmp_sol l).
  { rewrite T. destruct (view_trans _ _ _ V V3) as (_ & F & _). symmetry. apply F. }
  rewrite F. rewrite <- (view_rejected w2).
  - exact G.
  - eapply view_trans; [exact V3|apply begin_keeps].
Qed.

End Composition.

End Facts.

Lemma toy_view k w w' :
  (w <? k)%nat = (w' <? k)%nat -> same_view (Toy.problem k) w w'.
Proof.
  intros H. repeat split. intros x. cbv [value Toy.problem]. rewrite H.
  reflexivity.
Qed.

Lemma solve_al_accepted_at_entry_witness :
  solve_al Qsqrt_floor Toy.round (Toy.al_solver 3 2 4) Toy.solver (Toy.problem 0) 7 5%nat [0]
  = (5%nat, [0], Returned).
Proof.
  apply (solve_al_accepted_at_entry Qsqrt_floor Toy.round (Toy.al_solver 3 2 4) Toy.solver
           (Toy.problem 0) 7 5%nat [0] Toy.penalty); reflexivity.
Defined.

Lemma solve_al_restores_iterations_witness :
  solve_al Qsqrt_floor Toy.round (ToyBudget.al_solver 3 2 4) ToyBudget.solver
    (ToyBudget.problem 2) 5 (0%nat, 100%Z) [0]
  = ((2%nat, 100%Z), [0], Returned)
  /\ stop_criteria_iterations ToyBudget.solver (2%nat, 100%Z)
     = stop_criteria_iterations ToyBudget.solver (0%nat, 100%Z).
Proof.
  split; [reflexivity|].
  apply (solve_al_restores_iterations Qsqrt_floor Toy.round (ToyBudget.al_solver 3 2 4)
           ToyBudget.solver (ToyBudget.problem 2) 5 (0%nat, 100%Z) [0]
           (2%nat, 100%Z) [0]); reflexivity.
Defined.

Lemma al_weight_frozen_witness :
  al_weight
    (2%nat, {| sol := [0]; tmp_sol := [0]; al_weight := Fin (3 * 2); al_steps := 2 |}).2
  = al_weight
      (1%nat, {| sol := [0]; tmp_sol := [0]; al_weight := Fin (3 * 2); al_steps := 1 |}).2.
Proof.
  apply (al_weight_frozen Qsqrt_floor Toy.round (Toy.al_solver 3 2 4) Toy.solver
           (Toy.problem 3) [0] (Fin 1)).
  - reflexivity.
  - apply rtc_once. constructor; reflexivity.
Defined.

Lemma al_weight_is_scaled_witness :
  exists j : nat,
    (j <= 1)%nat
    /\ al_weight
         (1%nat, {| sol := [0]; tmp_sol := [0]; al_weight := Fin (3 * 2);
                    al_steps := 1 |}).2
       = Nat.iter j
           (fun x => Double.mul Toy.round x (scaling (Toy.al_solver 3 2 4)))
           (initial_al_weight (Toy.al_solver 3 2 4)).
Proof.
  apply (al_weight_is_scaled Qsqrt_floor Toy.round (Toy.al_solver 3 2 4)
           Toy.solver (Toy.problem 3) 0%nat [0] 0%nat
           {| sol := [0]; tmp_sol := [0]; al_weight := Fin 3; al_steps := 0 |}
           (Fin 1) eq_refl 1%nat).
  apply nsteps_once. constructor; reflexivity.
Defined.

Lemma solve_reduced_after_solve_al_witness :
  step_rejected (Toy.problem 1)
    (line_search_begin (Toy.problem 1) [0]
       (full_to_reduced (Toy.problem 1) 1%nat [0]) 1%nat)
    [0] (full_to_reduced (Toy.problem 1) 1%nat [0]) = false.
Proof.
  apply (solve_reduced_after_solve_al Qsqrt_floor Toy.round (Toy.al_solver 3 2 4)
           Toy.solver (Toy.problem 1)) with (fuel := 5%nat) (w := 0%nat) (sol0 := [0]).
  - intros x y w. apply toy_view. reflexivity.
  - intros w. apply toy_view. reflexivity.
  - intros n w. apply toy_view. reflexivity.
  - intros weight w. apply toy_view. reflexivity.
  - intros lagr [= <-] x weight w. apply toy_view. reflexivity.
  - reflexivity.
Defined.

End ALSolverMore.

(** ** TransientObjective: further properties *)

Module TransientFacts.

Import Eigen Objective TransientObjective ObjectiveFacts.

(** The Simpson weights over four steps. *)
Lemma weights_length_witness :
  length [1 # 3; 4 # 3; 2 # 4; 4 # 3; 1 # 3] = Z.to_nat (4 + 1).
Proof.
  apply (weights_length 4 1 "simpson" [1 # 3; 4 # 3; 2 # 4; 4 # 3; 1 # 3]).
  reflexivity.
Defined.

Lemma half_nonneg (x : Q) : 0 <= x -> 0 <= x / 2.
Proof. intros H. apply Qle_shift_div_l; [reflexivity|lra]. Qed.

Lemma third_nonneg (x : Q) : 0 <= x -> 0 <= x / 3.
Proof. intros H. apply Qle_shift_div_l; [reflexivity|lra]. Qed.

Lemma quarter_nonneg (x : Q) : 0 <= x -> 0 <= x / 4.
Proof. intros H. apply Qle_shift_div_l; [reflexivity|lra]. Qed.

Lemma repeat_Forall {A : Type} (P : A -> Prop) x n : P x -> Forall P (repeat x n).
Proof. intros H. induction n; cbn; constructor; assumption. Qed.

Lemma store_Forall (P : Q -> Prop) i x v v' :
  store i x v = Some v' -> P x -> Forall P v -> Forall P v'.
Proof.
  unfold store. destruct (i <? length v)%nat; [|discriminate].
  intros [= <-] Hx Hv. apply Forall_insert; assumption.
Qed.

Lemma simpson_interior_Forall (P : Q -> Prop) dt count : forall from v v',
  P (dt * 4 / 3) -> P (dt * 2 / 4) ->
  simpson_interior dt from count v = Some v' -> Forall P v -> Forall P v'.
Proof.
  induction count as [|count IH]; intros from v v' Odd Even; cbn [simpson_interior].
  - intros [= <-]. auto.
  - destruct (store from _ v) as [v1|] eqn:S; [|discriminate]. cbn.
    intros H Hv. eapply IH; eauto. eapply store_Forall; eauto.
    destruct (Nat.odd from); assumption.
Qed.

(** X8: with a step size [dt >= 0] no rule gives a negative weight. *)
Theorem weights_nonnegative time_steps dt rule ws :
  0 <= dt ->
  get_transient_quadrature_weights time_steps dt rule = Some ws ->
  Forall (Qle 0) ws.
Proof.
  intros Hdt. unfold get_transient_quadrature_weights.
  assert (Dt : forall n, Forall (Qle 0) (repeat dt n))
    by (intros; apply repeat_Forall; exact Hdt).
  assert (Zeros : forall n, Forall (Qle 0) (repeat 0 n))
    by (intros; apply repeat_Forall; discriminate).
  assert (Odd : 0 <= dt * 4 / 3) by (apply third_nonneg; lra).
  assert (Even : 0 <= dt * 2 / 4) by (apply quarter_nonneg; lra).
  pose proof (half_nonneg dt Hdt) as Half.
  pose proof (third_nonneg dt Hdt) as Third.
  destruct (time_steps + 1 <? 0)%Z; [discriminate|].
  repeat match goal with
         | |- context [if ?c then _ else _] => destruct c
         end; try discriminate; intros H;
    repeat match type of H with
           | (?x ≫= _) = Some _ =>
               let E := fresh "E" in
               destruct x eqn:E; cbn [mbind option_bind] in H; [|discriminate]
           | (if ?c then _ else _) = Some _ => destruct c; [|discriminate]
           end;
    repeat match goal with
           | E : store _ _ _ = Some ?v |- _ =>
               apply store_Forall with (P := Qle 0) in E;
               [|solve [auto; discriminate]|solve [auto]]
           | E : simpson_interior _ _ _ _ = Some _ |- _ =>
               apply simpson_interior_Forall with (P := Qle 0) in E;
               [|assumption|assumption|solve [auto]]
           end;
    auto.
Qed.

Lemma weights_nonnegative_witness :
  Forall (Qle 0) [1 # 2; 1; 1; 1; 1 # 2].
Proof.
  apply (weights_nonnegative 4 1 "trapezoidal" [1 # 2; 1; 1; 1; 1 # 2]).
  - discriminate.
  - reflexivity.
Defined.

(** X9: the matrix [TransientObjective::compute_adjoint_rhs] returns has
    [state.ndof()] rows and one column per time step,
    [time_steps_ + 1] in all. *)
Theorem transient_adjoint_rhs_shape time_steps dt rule rhs_step state m :
  TransientObjective.compute_adjoint_rhs time_steps dt rule rhs_step state
  = Some m ->
  rows m = ndof state
  /\ Forall (fun row => length row = Z.to_nat (time_steps + 1)) m.
Proof.
  unfold TransientObjective.compute_adjoint_rhs.
  destruct (get_transient_quadrature_weights time_steps dt rule) as [ws|];
    [|discriminate].
  cbn [mbind option_bind].
  match goal with
  | |- (?x ≫= _) = _ -> _ => destruct x as [columns|] eqn:E
  end; [|discriminate].
  cbn [mbind option_bind]. intros [= <-].
  apply length_mapM in E. rewrite length_seq in E.
  split.
  - unfold rows. rewrite length_map, length_seq. reflexivity.
  - apply Forall_forall. intros row Hrow. apply list_elem_of_In in Hrow.
    apply in_map_iff in Hrow as (r & <- & _).
    rewrite length_map. congruence.
Qed.

Lemma transient_adjoint_rhs_shape_witness :
  rows [[0 * 1; 1 * 1]] = ndof ToyObjective.one_dof
  /\ Forall (fun row => length row = Z.to_nat (1 + 1)) [[0 * 1; 1 * 1]].
Proof.
  apply (transient_adjoint_rhs_shape 1 1 "uniform" (fun _ _ => [1])
           ToyObjective.one_dof).
  reflexivity.
Defined.

(** *** The weighted sum over the time steps *)

Section WeightedSum.

Variable obj_value : nat -> Q.

Local Abbreviation term :=
  (fun (acc : Q) (wi : Q * nat) => acc + wi.1 * obj_value wi.2).




End WeightedSum.



(** *** The rule of a step by its number *)

Local Open Scope string_scope.









End TransientFacts.

(** ** TargetObjective::set_reference: the correspondence it builds *)

Module TargetFacts.

Import Eigen Objective TargetObjective.

(** The invariant of the first two loops, over any list of elements. *)
Lemma collected mesh ids l :
  (forall b,
     default [] ((foldl (collect mesh ids) (∅, 0%Z) l).1 !! b)
     = filter (fun e => get_body_id mesh e = b /\ skipped ids b = false) l)
  /\ (foldl (collect mesh ids) (∅, 0%Z) l).2
     = Z.of_nat (length (filter (fun e => skipped ids (get_body_id mesh e) = false) l)).
Proof.
  induction l as [|x l [IH IHc]] using rev_ind.
  - split; [|reflexivity]. intros b. cbn. rewrite lookup_empty. reflexivity.
  - rewrite foldl_app. cbn [foldl].
    destruct (foldl (collect mesh ids) (∅, 0%Z) l) as [m c] eqn:F.
    cbn [fst snd] in IH, IHc. unfold collect at 1 2.
    fold (skipped ids (get_body_id mesh x)).
    destruct (skipped ids (get_body_id mesh x)) eqn:Sk; cbn [fst snd].
    + split.
      * intros b. rewrite IH, filter_app, filter_cons_False, filter_nil, app_nil_r;
          [reflexivity|]. intros [<- ?]. congruence.
      * rewrite IHc, filter_app, filter_cons_False, filter_nil, app_nil_r;
          [reflexivity|congruence].
    + split.
      * intros b. rewrite filter_app.
        destruct (decide (b = get_body_id mesh x)) as [->|Ne].
        -- rewrite filter_cons_True, filter_nil by tauto.
           rewrite <- IH.
           destruct (m !! get_body_id mesh x) as [es|] eqn:L; cbn [fst];
             rewrite lookup_insert_eq; reflexivity.
        -- rewrite filter_cons_False, filter_nil, app_nil_r
             by (intros [? ?]; congruence).
           rewrite <- IH.
           destruct (m !! get_body_id mesh x) as [es|] eqn:L; cbn [fst];
             rewrite lookup_insert_ne by congruence; reflexivity.
      * rewrite filter_app, filter_cons_True, filter_nil, length_app by assumption.
        destruct (m !! get_body_id mesh x); cbn [snd length]; lia.
Qed.

(** X13: the first two loops of [set_reference] list, under every body
    id, exactly the selected elements of that body, in increasing order
    and each once, and count the selected elements of the simulation. *)
Theorem interested_elements_by_body mesh ids :
  (forall b, default [] ((interested_elements mesh ids).1 !! b)
             = elements_of_body mesh ids b)
  /\ (interested_elements mesh ids).2
     = Z.of_nat (length (filter (fun e => skipped ids (get_body_id mesh e) = false)
                                (seqZ 0 (Z.of_nat (n_bases mesh))))).
Proof. apply collected. Qed.

Lemma interested_lists mesh ids b :
  default [] ((interested_elements mesh ids).1 !! b) = elements_of_body mesh ids b.
Proof. apply collected. Qed.

Lemma elements_of_body_elem mesh ids b e :
  e ∈ elements_of_body mesh ids b
  <-> interested mesh ids e = true /\ get_body_id mesh e = b.
Proof.
  unfold elements_of_body. rewrite list_elem_of_filter, elem_of_seqZ.
  unfold interested. rewrite !andb_true_iff, negb_true_iff, Z.leb_le, Z.ltb_lt.
  split.
  - intros ((<- & ?) & ?). repeat split; try lia; assumption.
  - intros (((? & ?) & ?) & <-). repeat split; try lia; assumption.
Qed.

Lemma elements_of_body_NoDup mesh ids b : NoDup (elements_of_body mesh ids b).
Proof. apply NoDup_filter, NoDup_seqZ. Qed.

Lemma elements_of_body_disjoint ids mesh b b' e :
  e ∈ elements_of_body mesh ids b -> e ∈ elements_of_body mesh ids b' -> b = b'.
Proof.
  rewrite !elements_of_body_elem. intros [_ <-] [_ <-]. reflexivity.
Qed.

(** A body id with a selected element is one of the keys the last loop
    visits. *)
Lemma elements_of_body_keys mesh ids b e :
  e ∈ elements_of_body mesh ids b ->
  b ∈ merge_sort Z.le (elements (dom (interested_elements mesh ids).1)).
Proof.
  rewrite <- interested_lists.
  intros H. rewrite merge_sort_Permutation, elem_of_elements, elem_of_dom.
  destruct (_ !! b); [eauto|]. cbn in H. inversion H.
Qed.

(** The inner loop reads within the bounds of the reference's vector
    exactly when the vector is long enough. *)
Lemma pair_elements_returns es ref_es :
  forall i m,
    is_Some (pair_elements es ref_es i m)
    <-> es = [] \/ (i + length es <= length ref_es)%nat.
Proof.
  induction es as [|x es IH]; intros i m; cbn [pair_elements length].
  - split; eauto.
  - destruct (ref_es !! i) as [r|] eqn:R; cbn [mbind option_bind].
    + apply lookup_lt_Some in R. rewrite IH. destruct es; cbn [length].
      * split; [intros _; right; lia|tauto].
      * split; [intros [?|?]; [discriminate|right; lia]|].
        intros [?|?]; [discriminate|right; lia].
    + apply lookup_ge_None in R. split; [intros [? [=]]|].
      intros [?|?]; [discriminate|lia].
Qed.

(** The inner loop pairs the elements with the reference elements
    position by position and leaves every other entry alone. *)
Lemma pair_elements_in_order es ref_es :
  forall i m m',
    NoDup es ->
    pair_elements es ref_es i m = Some m' ->
    (forall j e, es !! j = Some e ->
       exists e_ref, ref_es !! (i + j)%nat = Some e_ref /\ m' !! e = Some e_ref)
    /\ (forall e, e ∉ es -> m' !! e = m !! e).
Proof.
  induction es as [|x es IH]; intros i m m' ND; cbn [pair_elements].
  - intros [= <-]. split; [intros j e [=]|reflexivity].
  - apply NoDup_cons in ND as [Nx ND].
    destruct (ref_es !! i) as [r|] eqn:R; cbn [mbind option_bind]; [|discriminate].
    intros H. destruct (IH _ _ _ ND H) as [In Out]. split.
    + intros [|j] e; cbn.
      * intros [= <-]. exists r. rewrite Nat.add_0_r, (Out _ Nx), lookup_insert_eq.
        tauto.
      * intros He. replace (i + S j)%nat with (S i + j)%nat by lia. eauto.
    + intros e He. apply not_elem_of_cons in He as [Ne Nin].
      rewrite (Out _ Nin). apply lookup_insert_ne. congruence.
Qed.

Lemma foldl_pointwise {A B : Type} (f g : A -> B -> A) :
  (forall a b, f a b = g a b) -> forall l a, foldl f a l = foldl g a l.
Proof.
  intros E. induction l as [|b l IH]; intros a; cbn [foldl]; [reflexivity|].
  rewrite E. apply IH.
Qed.

Section Pairing.

Variables own ref : Z -> list Z.

Lemma pair_bodies_none keys : foldl (pair_bodies own ref) None keys = None.
Proof. induction keys; [reflexivity|assumption]. Qed.

Lemma pair_bodies_returns keys m :
  is_Some (foldl (pair_bodies own ref) (Some m) keys)
  <-> forall b, b ∈ keys -> (length (own b) <= length (ref b))%nat.
Proof.
  revert m. induction keys as [|k keys IH]; intros m; cbn [foldl].
  - split; [|eauto]. intros _ b H. inversion H.
  - cbn [pair_bodies mbind option_bind].
    destruct (pair_elements (own k) (ref k) 0 m) as [m1|] eqn:P.
    + assert (S : is_Some (pair_elements (own k) (ref k) 0 m)) by (rewrite P; eauto).
      apply pair_elements_returns in S. rewrite IH. split.
      * intros H b Hb. apply elem_of_cons in Hb as [->|Hb]; [|auto].
        destruct S as [->|S]; cbn in *; lia.
      * intros H b Hb. apply H. apply elem_of_cons. tauto.
    + rewrite pair_bodies_none. split; [intros [? [=]]|]. intros H. exfalso.
      assert (S : is_Some (pair_elements (own k) (ref k) 0 m)).
      { apply pair_elements_returns. right. cbn. apply H, elem_of_cons. tauto. }
      rewrite P in S. destruct S as [? [=]].
Qed.

Hypothesis own_NoDup : forall b, NoDup (own b).
Hypothesis own_disjoint : forall b b' e, e ∈ own b -> e ∈ own b' -> b = b'.

Lemma pair_bodies_in_order keys :
  forall m m',
    foldl (pair_bodies own ref) (Some m) keys = Some m' ->
    (forall b j e, b ∈ keys -> own b !! j = Some e ->
       exists e_ref, ref b !! j = Some e_ref /\ m' !! e = Some e_ref)
    /\ (forall e, (forall b, b ∈ keys -> e ∉ own b) -> m' !! e = m !! e).
Proof.
  induction keys as [|k keys IH] using rev_ind; intros m m'.
  - cbn. intros [= <-]. split; [|reflexivity]. intros b j e H. inversion H.
  - rewrite foldl_app. cbn [foldl].
    destruct (foldl (pair_bodies own ref) (Some m) keys) as [m1|] eqn:F;
      [|discriminate].
    cbn [pair_bodies mbind option_bind]. intros P.
    destruct (IH _ _ F) as [In Out].
    destruct (pair_elements_in_order _ _ _ _ _ (own_NoDup k) P) as [In' Out'].
    split.
    + intros b j e Hb He. destruct (decide (b = k)) as [->|Ne].
      * apply In', He.
      * rewrite Out'.
        -- apply In; [|exact He]. apply elem_of_app in Hb as [?|Hb]; [assumption|].
           apply list_elem_of_singleton in Hb. contradiction.
        -- intros Hk. apply Ne. eapply own_disjoint; [|exact Hk].
           eapply list_elem_of_lookup_2, He.
    + intros e No. rewrite Out'.
      * apply Out. intros b Hb. apply No, elem_of_app. tauto.
      * apply No, elem_of_app. right. apply list_elem_of_singleton. reflexivity.
Qed.

End Pairing.

(** [set_reference] as the fold of the last loop over the lists of
    selected elements. *)
Lemma set_reference_fold state_ target_state ids (e_to_ref_e_ : gmap Z Z) :
  set_reference state_ target_state ids e_to_ref_e_
  = (m ← foldl (pair_bodies (elements_of_body state_ ids)
                            (elements_of_body target_state ids))
               (Some e_to_ref_e_)
               (merge_sort Z.le (elements (dom (interested_elements state_ ids).1)));
     Some (m, if negb ((interested_elements state_ ids).2
                       =? (interested_elements target_state ids).2)%Z
              then [log_error msg_mismatch]
              else [log_trace msg_matching (interested_elements state_ ids).2])).
Proof.
  unfold set_reference.
  pose proof (interested_lists state_ ids) as Own.
  pose proof (interested_lists target_state ids) as Ref.
  destruct (interested_elements target_state ids) as [ref ref_count].
  destruct (interested_elements state_ ids) as [own count]. cbn [fst snd] in *.
  f_equal. apply foldl_pointwise. intros acc b. unfold pair_bodies.
  rewrite Own, Ref. reflexivity.
Qed.

Lemma set_reference_returned state_ target_state ids (e_to_ref_e_ m : gmap Z Z) log :
  set_reference state_ target_state ids e_to_ref_e_ = Some (m, log) ->
  foldl (pair_bodies (elements_of_body state_ ids) (elements_of_body target_state ids))
        (Some e_to_ref_e_)
        (merge_sort Z.le (elements (dom (interested_elements state_ ids).1)))
  = Some m.
Proof.
  rewrite set_reference_fold. destruct (foldl _ _ _); cbn; congruence.
Qed.

(** What a normal return of [set_reference] says of the map. *)
Lemma set_reference_entries state_ target_state ids (e_to_ref_e_ m : gmap Z Z) log :
  set_reference state_ target_state ids e_to_ref_e_ = Some (m, log) ->
  (forall b i e, elements_of_body state_ ids b !! i = Some e ->
     exists e_ref,
       elements_of_body target_state ids b !! i = Some e_ref /\ m !! e = Some e_ref)
  /\ (forall e, interested state_ ids e = false -> m !! e = e_to_ref_e_ !! e).
Proof.
  intros R. apply set_reference_returned in R.
  destruct (pair_bodies_in_order _ _ (elements_of_body_NoDup state_ ids)
              (elements_of_body_disjoint ids state_) _ _ _ R) as [In Out].
  split.
  - intros b i e He. apply In; [|exact He].
    eapply elements_of_body_keys, list_elem_of_lookup_2, He.
  - intros e No. apply Out. intros b _ He.
    apply elements_of_body_elem in He as [Yes _]. congruence.
Qed.

(** X14: when [set_reference] returns, the entries of [e_to_ref_e_] for
    everything but the selected elements of the simulation (elements of
    skipped bodies, keys that are no element) are what they were before
    the call: an entry of an earlier call is neither removed nor
    changed. *)
Theorem set_reference_keeps_others state_ target_state ids
    (e_to_ref_e_ m : gmap Z Z) log e :
  set_reference state_ target_state ids e_to_ref_e_ = Some (m, log) ->
  interested state_ ids e = false ->
  m !! e = e_to_ref_e_ !! e.
Proof. intros R. apply (set_reference_entries _ _ _ _ _ _ R). Qed.

(** X15: when [set_reference] returns, the selected element at the
    position [i] among those of its body id is paired with the selected
    element of the reference at the position [i] among those of the same
    body id, both in increasing order of the element index. *)
Theorem set_reference_pairs_in_order state_ target_state ids
    (e_to_ref_e_ m : gmap Z Z) log b i e :
  set_reference state_ target_state ids e_to_ref_e_ = Some (m, log) ->
  elements_of_body state_ ids b !! i = Some e ->
  exists e_ref,
    elements_of_body target_state ids b !! i = Some e_ref
    /\ m !! e = Some e_ref.
Proof. intros R. apply (set_reference_entries _ _ _ _ _ _ R). Qed.

(** X16: when [set_reference] returns, every selected element of the
    simulation has an entry, and the entry is a selected element of the
    reference with the same body id: elements are never paired across
    bodies, whatever [e_to_ref_e_] held before. *)
Theorem set_reference_same_body state_ target_state ids
    (e_to_ref_e_ m : gmap Z Z) log e :
  set_reference state_ target_state ids e_to_ref_e_ = Some (m, log) ->
  interested state_ ids e = true ->
  exists e_ref,
    m !! e = Some e_ref
    /\ interested target_state ids e_ref = true
    /\ get_body_id target_state e_ref = get_body_id state_ e.
Proof.
  intros R Yes.
  assert (He : e ∈ elements_of_body state_ ids (get_body_id state_ e))
    by (apply elements_of_body_elem; tauto).
  apply list_elem_of_lookup_1 in He as [i He].
  destruct (proj1 (set_reference_entries _ _ _ _ _ _ R) _ _ _ He) as (r & Hr & L).
  exists r. split; [exact L|].
  apply list_elem_of_lookup_2, elements_of_body_elem in Hr. exact Hr.
Qed.

(** X17: [set_reference] stays within the bounds of the reference's
    vectors of elements exactly when, for every body id, the reference has
    at least as many selected elements as the simulation; the comparison
    of the two total counts decides the line logged, not this. *)
Theorem set_reference_in_bounds state_ target_state ids (e_to_ref_e_ : gmap Z Z) :
  is_Some (set_reference state_ target_state ids e_to_ref_e_)
  <-> forall b, (length (elements_of_body state_ ids b)
                 <= length (elements_of_body target_state ids b))%nat.
Proof.
  rewrite set_reference_fold.
  match goal with
  | |- is_Some (?f ≫= _) <-> _ =>
      assert (E : is_Some f <-> forall b, (length (elements_of_body state_ ids b)
                 <= length (elements_of_body target_state ids b))%nat)
  end.
  { rewrite pair_bodies_returns. split; [|auto]. intros H b.
    destruct (elements_of_body state_ ids b) as [|e es] eqn:L; [cbn; lia|].
    rewrite <- L. apply H. apply (elements_of_body_keys _ _ _ e).
    rewrite L. apply elem_of_cons. tauto. }
  rewrite <- E. destruct (foldl _ _ _); cbn; split; intros [? [=]]; eauto.
Qed.

Lemma set_reference_self_returns mesh ids (e_to_ref_e_ : gmap Z Z) :
  exists m,
    set_reference mesh mesh ids e_to_ref_e_
    = Some (m, [log_trace msg_matching (interested_elements mesh ids).2]).
Proof.
  rewrite set_reference_fold, Z.eqb_refl. cbn [negb].
  destruct (proj2 (pair_bodies_returns (elements_of_body mesh ids)
                     (elements_of_body mesh ids)
                     (merge_sort Z.le (elements (dom (interested_elements mesh ids).1)))
                     e_to_ref_e_)) as [m R]; [intros b _; lia|].
  rewrite R. exists m. reflexivity.
Qed.

(** X18: with the simulation itself as the reference, [set_reference]
    returns, logs the number of matching elements, and maps every selected
    element to itself; the other entries are kept. *)
Theorem set_reference_self mesh ids (e_to_ref_e_ : gmap Z Z) :
  exists m,
    set_reference mesh mesh ids e_to_ref_e_
    = Some (m, [log_trace msg_matching (interested_elements mesh ids).2])
    /\ forall e, m !! e = if interested mesh ids e then Some e else e_to_ref_e_ !! e.
Proof.
  destruct (set_reference_self_returns mesh ids e_to_ref_e_) as [m R].
  exists m. split; [exact R|].
  destruct (set_reference_entries _ _ _ _ _ _ R) as [In Out].
  intros e. destruct (interested mesh ids e) eqn:I; [|apply Out, I].
  assert (He : e ∈ elements_of_body mesh ids (get_body_id mesh e))
    by (apply elements_of_body_elem; tauto).
  apply list_elem_of_lookup_1 in He as [i He].
  destruct (In _ _ _ He) as (r & Hr & L). congruence.
Qed.

(** Four striped elements against four elements in blocks, the body 1
    selected: the entry of the element 0, of the body 0, is kept. *)
Lemma set_reference_keeps_others_witness :
  set_reference (ToyMeshes.striped 4) (ToyMeshes.blocks 4) {[1%Z]} {[0%Z := 9%Z]}
  = Some ({[0%Z := 9%Z; 1%Z := 2%Z; 3%Z := 3%Z]}, [log_trace msg_matching 2])
  /\ ({[0%Z := 9%Z; 1%Z := 2%Z; 3%Z := 3%Z]} : gmap Z Z) !! 0%Z
     = ({[0%Z := 9%Z]} : gmap Z Z) !! 0%Z.
Proof.
  assert (R : set_reference (ToyMeshes.striped 4) (ToyMeshes.blocks 4)
                {[1%Z]} {[0%Z := 9%Z]}
              = Some ({[0%Z := 9%Z; 1%Z := 2%Z; 3%Z := 3%Z]},
                      [log_trace msg_matching 2]))
    by (vm_compute; reflexivity).
  split; [exact R|].
  apply (set_reference_keeps_others _ _ _ _ _ _ 0%Z R). reflexivity.
Defined.

(** All bodies selected: the second element of the body 0, the element 2
    of the stripes, is paired with the second element of the body 0 of the
    blocks, the element 1. *)
Lemma set_reference_pairs_in_order_witness :
  set_reference (ToyMeshes.striped 4) (ToyMeshes.blocks 4) ∅ ∅
  = Some ({[0%Z := 0%Z; 1%Z := 2%Z; 2%Z := 1%Z; 3%Z := 3%Z]},
          [log_trace msg_matching 4])
  /\ exists e_ref,
       elements_of_body (ToyMeshes.blocks 4) ∅ 0 !! 1%nat = Some e_ref
       /\ ({[0%Z := 0%Z; 1%Z := 2%Z; 2%Z := 1%Z; 3%Z := 3%Z]} : gmap Z Z) !! 2%Z
          = Some e_ref.
Proof.
  assert (R : set_reference (ToyMeshes.striped 4) (ToyMeshes.blocks 4) ∅ ∅
              = Some ({[0%Z := 0%Z; 1%Z := 2%Z; 2%Z := 1%Z; 3%Z := 3%Z]},
                      [log_trace msg_matching 4]))
    by (vm_compute; reflexivity).
  split; [exact R|].
  apply (set_reference_pairs_in_order _ _ _ _ _ _ 0%Z 1%nat 2%Z R). reflexivity.
Defined.

(** The element 3 of the stripes, of the body 1, is paired with an element
    of the body 1 of the blocks. *)
Lemma set_reference_same_body_witness :
  exists e_ref,
    ({[0%Z := 0%Z; 1%Z := 2%Z; 2%Z := 1%Z; 3%Z := 3%Z]} : gmap Z Z) !! 3%Z
    = Some e_ref
    /\ interested (ToyMeshes.blocks 4) ∅ e_ref = true
    /\ get_body_id (ToyMeshes.blocks 4) e_ref = get_body_id (ToyMeshes.striped 4) 3.
Proof.
  apply (set_reference_same_body (ToyMeshes.striped 4) (ToyMeshes.blocks 4) ∅ ∅
           _ [log_trace msg_matching 4] 3%Z).
  - vm_compute. reflexivity.
  - reflexivity.
Defined.

(** Whether [set_reference] returns, and what it logs, does not depend on
    the map it starts from. *)
Lemma set_reference_any_map state_ target_state ids (m1 m2 m1' : gmap Z Z) log :
  set_reference state_ target_state ids m1 = Some (m1', log) ->
  exists m2', set_reference state_ target_state ids m2 = Some (m2', log).
Proof.
  rewrite !set_reference_fold. intros R.
  destruct (foldl _ (Some m1) _) as [m|] eqn:F; [|discriminate].
  cbn in R. injection R as <- <-.
  assert (S : is_Some (foldl (pair_bodies (elements_of_body state_ ids)
                                (elements_of_body target_state ids)) (Some m1)
                         (merge_sort Z.le
                            (elements (dom (interested_elements state_ ids).1)))))
    by (rewrite F; eauto).
  pose proof (proj1 (pair_bodies_returns _ _ _ _) S) as S'.
  destruct (proj2 (pair_bodies_returns (elements_of_body state_ ids)
                     (elements_of_body target_state ids)
                     (merge_sort Z.le
                        (elements (dom (interested_elements state_ ids).1)))
                     m2) S') as [m2' ->].
  exists m2'. reflexivity.
Qed.

(** X28: [set_reference] is idempotent: called again with the same
    reference and the same body ids on the map it has built, it returns
    the same map and logs the same line. *)
Theorem set_reference_idempotent state_ target_state ids
    (e_to_ref_e_ m : gmap Z Z) log :
  set_reference state_ target_state ids e_to_ref_e_ = Some (m, log) ->
  set_reference state_ target_state ids m = Some (m, log).
Proof.
  intros R.
  destruct (set_reference_any_map _ _ _ _ m _ _ R) as [m' R'].
  rewrite R'. f_equal. f_equal. apply map_eq. intros e.
  destruct (set_reference_entries _ _ _ _ _ _ R) as [In Out].
  destruct (set_reference_entries _ _ _ _ _ _ R') as [In' Out'].
  destruct (interested state_ ids e) eqn:I; [|apply Out', I].
  assert (He : e ∈ elements_of_body state_ ids (get_body_id state_ e))
    by (apply elements_of_body_elem; tauto).
  apply list_elem_of_lookup_1 in He as [i He].
  destruct (In _ _ _ He) as (r & Hr & L).
  destruct (In' _ _ _ He) as (r' & Hr' & L'). congruence.
Qed.

(** The stripes against the blocks, a second time. *)
Lemma set_reference_idempotent_witness :
  set_reference (ToyMeshes.striped 4) (ToyMeshes.blocks 4) ∅
    {[0%Z := 0%Z; 1%Z := 2%Z; 2%Z := 1%Z; 3%Z := 3%Z]}
  = Some ({[0%Z := 0%Z; 1%Z := 2%Z; 2%Z := 1%Z; 3%Z := 3%Z]},
          [log_trace msg_matching 4]).
Proof.
  apply (set_reference_idempotent (ToyMeshes.striped 4) (ToyMeshes.blocks 4) ∅ ∅).
  vm_compute. reflexivity.
Defined.

Section SelfReference.

Variable ElementBases : Type.
Variable eval_geom_mapping : ElementBases -> MatrixXd -> MatrixXd.
Variable interpolate_at_local_vals :
  Z -> MatrixXd -> VectorXd -> MatrixXd * MatrixXd.

(** X29: [set_reference] and [get_integral_functional] compose.  A new
    objective, whose [target_state_] is null, fails the assertion of
    [get_integral_functional].  After [set_reference] with the simulation
    itself as the reference, on an object with an empty map and for a
    reference with a cached solution, [get_integral_functional] passes its
    assertions, and both closures compare every element with the element
    of the same index in the reference that was set. *)
Theorem self_reference_integrand
    (this : t ElementBases) (reference : Simulation ElementBases) ids :
  e_to_ref_e_ ElementBases this = ∅ ->
  mesh_of ElementBases reference = state_ ElementBases this ->
  (0 < length (diff_cached ElementBases (state_of ElementBases reference)))%nat ->
  (target_state_ ElementBases this = None ->
   get_integral_functional ElementBases eval_geom_mapping
     interpolate_at_local_vals this = None)
  /\ exists this' log j dj,
       set_reference_of ElementBases this reference ids = Some (this', log)
       /\ target_state_ ElementBases this' = Some reference
       /\ get_integral_functional ElementBases eval_geom_mapping
            interpolate_at_local_vals this' = Some (j, dj)
       /\ forall local_pts pts u elem step,
            j local_pts pts u elem step
            = ('(pts_ref, u_ref) ←
                 reference_at ElementBases eval_geom_mapping
                   interpolate_at_local_vals
                   (state_of ElementBases reference) elem local_pts step;
               j_rows pts_ref u_ref pts u)
            /\ dj local_pts pts u elem step
               = ('(pts_ref, u_ref) ←
                    reference_at ElementBases eval_geom_mapping
                      interpolate_at_local_vals
                      (state_of ElementBases reference) elem local_pts step;
                  djdu_rows pts_ref u_ref pts u).
Proof.
  intros Empty Self Cached. split.
  { unfold get_integral_functional. intros ->. reflexivity. }
  unfold set_reference_of. rewrite Self, Empty.
  destruct (set_reference_self_returns (state_ ElementBases this) ids ∅) as [m R].
  rewrite R. cbn [mbind option_bind].
  eexists _, _, _, _. split; [reflexivity|]. split; [reflexivity|].
  unfold get_integral_functional. cbn [target_state_ e_to_ref_e_ mbind option_bind].
  apply Nat.ltb_lt in Cached. rewrite Cached.
  split; [reflexivity|].
  destruct (set_reference_entries _ _ _ _ _ _ R) as [In Out].
  assert (E : forall e, e_ref_of m e = e).
  { intros e. unfold e_ref_of.
    destruct (interested (state_ ElementBases this) ids e) eqn:I.
    - assert (He : e ∈ elements_of_body (state_ ElementBases this) ids
                         (get_body_id (state_ ElementBases this) e))
        by (apply elements_of_body_elem; tauto).
      apply list_elem_of_lookup_1 in He as [i He].
      destruct (In _ _ _ He) as (r & Hr & ->). congruence.
    - rewrite (Out e I), lookup_empty. reflexivity. }
  intros local_pts pts u elem step. unfold j_func, djdu_func. cbv zeta.
  rewrite E. split; reflexivity.
Qed.

End SelfReference.

(** The toy reference simulation set as the reference of a new objective
    on the same elements. *)
Lemma self_reference_integrand_witness :
  (get_integral_functional Q ToyObjective.eval_geom_mapping
     ToyObjective.interpolate_at_local_vals ToyTarget.fresh = None)
  /\ exists this' log j dj,
       set_reference_of Q ToyTarget.fresh ToyTarget.simulation ∅
       = Some (this', log)
       /\ target_state_ Q this' = Some ToyTarget.simulation
       /\ get_integral_functional Q ToyObjective.eval_geom_mapping
            ToyObjective.interpolate_at_local_vals this' = Some (j, dj)
       /\ j [[0]] [[3]] [[1]] 1%Z 0%Z
          = Some [(0 + (0 + 10 - (1 + 3)) * (0 + 10 - (1 + 3)))%Q]
       /\ dj [[0]] [[3]] [[1]] 1%Z 0%Z = Some [[(2 * (1 + 3 - (0 + 10)))%Q]].
Proof.
  destruct (self_reference_integrand Q ToyObjective.eval_geom_mapping
              ToyObjective.interpolate_at_local_vals ToyTarget.fresh
              ToyTarget.simulation ∅) as (Null & this' & log & j & dj & S & T & G & F).
  - reflexivity.
  - reflexivity.
  - cbn. lia.
  - split; [apply Null; reflexivity|].
    exists this', log, j, dj. split; [exact S|]. split; [exact T|].
    split; [exact G|].
    destruct (F [[0%Q]] [[3%Q]] [[1%Q]] 1%Z 0%Z) as [-> ->].
    split; reflexivity.
Defined.

End TargetFacts.

(** ** The objectives: sums, penalties, integrands and their derivatives *)

Module ObjectiveMore.

Import Eigen Objective ObjectiveFacts.

(** *** SumObjective and ComplianceObjective on objects with content *)

(** Two objectives with the gradients (1, 2) and (3, 4). *)
Lemma gradient_is_sum_witness :
  exists g s,
    SumObjective.compute_partial_gradient
      [ToySum.constant 1 [1; 0] [1; 2]; ToySum.constant 2 [0; 1] [3; 4]]
      ToySum.two_entries = Some g
    /\ SumObjective.sum_of_gradients
         [ToySum.constant 1 [1; 0] [1; 2]; ToySum.constant 2 [0; 1] [3; 4]]
         ToySum.two_entries = Some s
    /\ length g = 2%nat
    /\ vec_eq g s.
Proof.
  apply (gradient_is_sum ToySum.two_entries
           [ToySum.constant 1 [1; 0] [1; 2]; ToySum.constant 2 [0; 1] [3; 4]]).
  repeat constructor.
Defined.

(** The same two objectives, with the right-hand sides (1, 0) and (0, 1),
    one column each. *)
Lemma adjoint_rhs_is_sum_one_column_witness :
  exists m s,
    SumObjective.compute_adjoint_rhs
      [ToySum.constant 1 [1; 0] [1; 2]; ToySum.constant 2 [0; 1] [3; 4]]
      ToySum.two_dofs = Some m
    /\ SumObjective.sum_of_adjoint_rhs 1
         [ToySum.constant 1 [1; 0] [1; 2]; ToySum.constant 2 [0; 1] [3; 4]]
         ToySum.two_dofs = Some s
    /\ mat_eq m s.
Proof.
  apply (adjoint_rhs_is_sum_one_column ToySum.two_dofs
           [ToySum.constant 1 [1; 0] [1; 2]; ToySum.constant 2 [0; 1] [3; 4]]).
  repeat constructor; eexists; (split; [reflexivity|reflexivity]).
Defined.

(** On one element the topology gradient is the vector (36), of the
    [full_dim = 1] entries of the topology parameter. *)
Lemma compliance_gradient_size_witness :
  ComplianceObjective.compute_partial_gradient ToyCompliance.pow
    ToyCompliance.one_element 1 ToyObjective.topology_parameter = Ret [36]
  /\ length [36] = full_dim ToyObjective.topology_parameter.
Proof.
  assert (R : ComplianceObjective.compute_partial_gradient ToyCompliance.pow
                ToyCompliance.one_element 1 ToyObjective.topology_parameter
              = Ret [36])
    by (vm_compute; reflexivity).
  split; [exact R|].
  apply (compliance_gradient_size ToyCompliance.pow ToyCompliance.one_element
           ToyObjective.topology_parameter 1 _ R).
Defined.

(** *** VolumePaneltyObjective::value *)



(** *** Sums, inner products and squared norms *)

Lemma sum_fold acc (v : VectorXd) : fold_left Qplus v acc == acc + foldr Qplus 0 v.
Proof.
  revert acc. induction v as [|x v IH]; intros acc; cbn; [ring|].
  rewrite IH. ring.
Qed.

Lemma sum_foldr (v : VectorXd) : sum v == foldr Qplus 0 v.
Proof. unfold sum. rewrite sum_fold. ring. Qed.

Lemma squares_nonneg (v : VectorXd) : 0 <= foldr (fun x acc => x * x + acc) 0 v.
Proof. induction v as [|x v IH]; cbn; [lra|]. nra. Qed.

Lemma squaredNorm_nonneg (v : VectorXd) : 0 <= squaredNorm v.
Proof. rewrite squaredNorm_foldr. apply squares_nonneg. Qed.




Lemma add_Some (a b c : VectorXd) :
  add a b = Some c -> length a = length b /\ c = zip_with Qplus a b.
Proof.
  unfold add. destruct (length a =? length b)%nat eqn:E; [|discriminate].
  apply Nat.eqb_eq in E. intros [= <-]. tauto.
Qed.

Lemma sub_Some (a b c : VectorXd) :
  sub a b = Some c -> length a = length b /\ c = zip_with Qminus a b.
Proof.
  unfold sub. destruct (length a =? length b)%nat eqn:E; [|discriminate].
  apply Nat.eqb_eq in E. intros [= <-]. tauto.
Qed.

Lemma add_matrix_Some (u h uh : MatrixXd) :
  add_matrix u h = Some uh ->
  rows u = rows h /\ uh = zip_with (zip_with Qplus) u h
  /\ forall q a b, u !! q = Some a -> h !! q = Some b -> length a = length b.
Proof.
  unfold add_matrix.
  destruct (rows u =? rows h)%nat eqn:E; [|discriminate].
  destruct (forallb _ _) eqn:F; [|discriminate]. cbn.
  apply Nat.eqb_eq in E. intros [= <-]. repeat split; [assumption|].
  intros q a b Ha Hb. rewrite forallb_forall in F.
  apply Nat.eqb_eq. apply (F (a, b)). apply list_elem_of_In.
  apply (list_elem_of_lookup_2 _ q). apply lookup_zip_with_Some. eauto.
Qed.

Lemma lookup_repeat {A : Type} (x : A) n : forall q,
  (q < n)%nat -> repeat x n !! q = Some x.
Proof.
  induction n as [|n IH]; intros [|q] H; cbn; try lia; [reflexivity|].
  apply IH. lia.
Qed.

(** The inner product with a unit vector reads a coefficient. *)
Lemma dot_unit (n : nat) : forall (i : nat) (h : VectorXd) x,
  (i < n)%nat -> h !! i = Some x ->
  dot (<[i := 1]> (Zero n)) h == x.
Proof.
  unfold dot. setoid_rewrite sum_foldr.
  assert (Z : forall n (h : VectorXd),
             foldr Qplus 0 (zip_with Qmult (Zero n) h) == 0).
  { clear. induction n as [|n IH]; intros [|y h]; cbn; try reflexivity.
    rewrite IH. ring. }
  induction n as [|n IH]; intros i h x Hi; [lia|].
  destruct h as [|y h]; [discriminate|]. destruct i as [|i]; cbn.
  - intros [= ->]. fold (Zero n). rewrite Z. ring.
  - intros Hx. fold (Zero n). rewrite (IH i h x) by (assumption || lia). ring.
Qed.

(** The squared mismatch after a change [h] of the displacement. *)
Lemma squared_mismatch_expansion (s : VectorXd) : forall u p h : VectorXd,
  length u = length s -> length p = length s -> length h = length s ->
  squaredNorm (zip_with Qminus s (zip_with Qplus (zip_with Qplus u h) p))
  == squaredNorm (zip_with Qminus s (zip_with Qplus u p))
     + dot (scale 2 (zip_with Qminus (zip_with Qplus u p) s)) h
     + squaredNorm h.
Proof.
  unfold dot. setoid_rewrite squaredNorm_foldr. setoid_rewrite sum_foldr.
  induction s as [|x s IH]; intros [|a u] [|b p] [|c h]; cbn [length];
    try discriminate.
  - intros _ _ _. cbn. ring.
  - intros [= Hu] [= Hp] [= Hh]. cbn [zip_with foldr scale map].
    rewrite (IH u p h Hu Hp Hh). unfold scale. ring.
Qed.

(** *** TargetObjective::get_integral_functional *)

Section TargetIntegrand.

Import TargetObjective.

Variable ElementBases : Type.
Variable eval_geom_mapping : ElementBases -> MatrixXd -> MatrixXd.
Variable interpolate_at_local_vals :
  Z -> MatrixXd -> VectorXd -> MatrixXd * MatrixXd.

Lemma j_rows_nonneg (pts_ref u_ref pts u : MatrixXd) (j0 : VectorXd) :
  j_rows pts_ref u_ref pts u = Some j0 ->
  length j0 = rows u /\ Forall (fun x => 0 <= x) j0.
Proof.
  unfold j_rows. intros J. split.
  - apply length_mapM in J. rewrite length_seq in J. congruence.
  - apply mapM_Some in J. apply Forall_forall. intros y Hy.
    apply list_elem_of_lookup_1 in Hy as [i Hy].
    destruct (Forall2_lookup_r _ _ _ _ _ J Hy) as (q & _ & E).
    repeat match type of E with
           | (?o ≫= _) = Some _ =>
               destruct o; cbn [mbind option_bind] in E; [|discriminate]
           end.
    destruct (sub _ _); [|discriminate]. cbn in E. injection E as <-.
    apply squaredNorm_nonneg.
Qed.

Lemma j_rows_expansion (pts_ref u_ref pts u h uh : MatrixXd)
    (j0 : VectorXd) (d : MatrixXd) :
  add_matrix u h = Some uh ->
  j_rows pts_ref u_ref pts u = Some j0 ->
  djdu_rows pts_ref u_ref pts u = Some d ->
  exists j1,
    j_rows pts_ref u_ref pts uh = Some j1
    /\ forall q h_q, h !! q = Some h_q ->
         exists x0 x1 d_q,
           j0 !! q = Some x0 /\ j1 !! q = Some x1 /\ d !! q = Some d_q
           /\ x1 == x0 + dot d_q h_q + squaredNorm h_q.
Proof.
  intros A J D. apply add_matrix_Some in A as (R & -> & Sh).
  unfold j_rows, djdu_rows in *. unfold MatrixXd, VectorXd in *.
  apply mapM_Some in J, D.
  assert (R' : rows (zip_with (zip_with Qplus) u h) = rows u).
  { unfold rows, MatrixXd, VectorXd in *. rewrite length_zip_with. lia. }
  rewrite R'.
  assert (Step : forall q h_q, h !! q = Some h_q ->
            exists x0 x1 d_q,
              j0 !! q = Some x0 /\ d !! q = Some d_q
              /\ (u_ref_q ← u_ref !! q; pts_ref_q ← pts_ref !! q;
                  u_q ← zip_with (zip_with Qplus) u h !! q; pts_q ← pts !! q;
                  a ← add u_ref_q pts_ref_q;
                  b ← add u_q pts_q;
                  squaredNorm <$> sub a b) = Some x1
              /\ x1 == x0 + dot d_q h_q + squaredNorm h_q).
  { intros q h_q Hh.
    assert (Hq : (q < rows u)%nat) by (rewrite R; eapply lookup_lt_Some, Hh).
    assert (Sq : seq 0 (rows u) !! q = Some q) by (apply lookup_seq; lia).
    destruct (Forall2_lookup_l _ _ _ _ _ J Sq) as (x0 & Hx0 & E0).
    destruct (Forall2_lookup_l _ _ _ _ _ D Sq) as (d_q & Hd & Ed).
    exists x0.
    destruct (u_ref !! q) as [a|]; [|discriminate]. cbn [mbind option_bind] in *.
    destruct (pts_ref !! q) as [b|]; [|discriminate]. cbn [mbind option_bind] in *.
    destruct (u !! q) as [u_q|] eqn:Hu; [|discriminate].
    cbn [mbind option_bind] in *.
    destruct (pts !! q) as [p|]; [|discriminate]. cbn [mbind option_bind] in *.
    destruct (add a b) as [s|] eqn:As; [|destruct (add u_q p); discriminate].
    destruct (add u_q p) as [t|] eqn:At; [|discriminate].
    cbn [mbind option_bind] in *.
    destruct (sub s t) as [x|] eqn:Sx; [|discriminate].
    destruct (sub t s) as [x'|] eqn:Sx'; [|discriminate].
    cbn [mbind option_bind fmap option_fmap option_map] in *.
    destruct (length x' =? cols u)%nat; [|discriminate].
    injection E0 as <-. injection Ed as <-.
    apply add_Some in As as [Las ->]. apply add_Some in At as [Lat ->].
    apply sub_Some in Sx as [Lx ->]. apply sub_Some in Sx' as [_ ->].
    rewrite length_zip_with in Lx. rewrite length_zip_with in Lx.
    pose proof (Sh _ _ _ Hu Hh) as Lh.
    rewrite lookup_zip_with, Hu. cbn [mbind option_bind].
    unfold MatrixXd, VectorXd in *. rewrite Hh.
    cbn [mbind option_bind].
    unfold add at 1. rewrite length_zip_with.
    replace (length u_q `min` length h_q =? length p)%nat with true
      by (symmetry; apply Nat.eqb_eq; lia).
    cbn [mbind option_bind]. unfold sub. rewrite !length_zip_with.
    replace (_ =? _)%nat with true by (symmetry; apply Nat.eqb_eq; lia).
    cbn [fmap option_fmap option_map].
    eexists _, _. repeat split; try eassumption.
    apply squared_mismatch_expansion; rewrite ?length_zip_with; lia. }
  assert (Some1 : is_Some (mapM (fun q =>
                  u_ref_q ← u_ref !! q; pts_ref_q ← pts_ref !! q;
                  u_q ← zip_with (zip_with Qplus) u h !! q; pts_q ← pts !! q;
                  a ← add u_ref_q pts_ref_q;
                  b ← add u_q pts_q;
                  squaredNorm <$> sub a b) (seq 0 (rows u)))).
  { apply mapM_is_Some, Forall_forall. intros q Hq.
    apply elem_of_seq in Hq.
    destruct (lookup_lt_is_Some_2 h q) as [h_q Hh];
      [unfold rows, MatrixXd, VectorXd in *; lia|].
    destruct (Step q h_q Hh) as (? & x1 & ? & _ & _ & E & _). exists x1. exact E. }
  destruct Some1 as [j1 J1]. exists j1. split; [exact J1|].
  intros q h_q Hh. destruct (Step q h_q Hh) as (x0 & x1 & d_q & H0 & Hd & E & Eq).
  exists x0, x1, d_q. repeat split; try assumption.
  apply mapM_Some in J1.
  assert (Sq : seq 0 (rows u) !! q = Some q).
  { apply lookup_seq. split; [reflexivity|]. rewrite R. eapply lookup_lt_Some, Hh. }
  destruct (Forall2_lookup_l _ _ _ _ _ J1 Sq) as (y & Hy & Ey).
  rewrite Hy. congruence.
Qed.

Variable e_to_ref_e_ : gmap Z Z.
Variable target_state_ : TargetState ElementBases.

Local Abbreviation j_of :=
  (j_func ElementBases eval_geom_mapping interpolate_at_local_vals
     e_to_ref_e_ target_state_).
Local Abbreviation djdu_of :=
  (djdu_func ElementBases eval_geom_mapping interpolate_at_local_vals
     e_to_ref_e_ target_state_).

(** X23: the closure [djdu_func] is the derivative of the closure
    [j_func] in the displacement: where both return at [u], [j_func]
    returns at [u + h] for every [h] of the shape of [u], and at every
    point [q] its value there is the value at [u], plus the inner product
    of the row [q] of [djdu_func] with the row [q] of [h], plus the squared
    norm of that row of [h]. *)
Theorem target_integrand_expansion (local_pts pts u h uh : MatrixXd)
    (elem step : Z) (j0 : VectorXd) (d : MatrixXd) :
  add_matrix u h = Some uh ->
  j_of local_pts pts u elem step = Some j0 ->
  djdu_of local_pts pts u elem step = Some d ->
  exists j1,
    j_of local_pts pts uh elem step = Some j1
    /\ forall q h_q, h !! q = Some h_q ->
         exists x0 x1 d_q,
           j0 !! q = Some x0 /\ j1 !! q = Some x1 /\ d !! q = Some d_q
           /\ x1 == x0 + dot d_q h_q + squaredNorm h_q.
Proof.
  unfold j_func, djdu_func. cbv zeta.
  destruct (reference_at _ _ _ _ _ _ _) as [[pts_ref u_ref]|]; [|discriminate].
  cbn [mbind option_bind]. apply j_rows_expansion.
Qed.

(** X24: what [j_func] returns has one entry per row of [u], none of them
    negative. *)
Theorem target_integrand_nonneg (local_pts pts u : MatrixXd)
    (elem step : Z) (j0 : VectorXd) :
  j_of local_pts pts u elem step = Some j0 ->
  length j0 = rows u /\ Forall (fun x => 0 <= x) j0.
Proof.
  unfold j_func. cbv zeta.
  destruct (reference_at _ _ _ _ _ _ _) as [[pts_ref u_ref]|]; [|discriminate].
  cbn [mbind option_bind]. apply j_rows_nonneg.
Qed.

End TargetIntegrand.

(** On the toy reference simulation, at the element 1 with the reference
    point 10: at [u = 1], [pts = 3] the integrand is 36 and its derivative
    -12; at [u + h = 3] it is 16 = 36 - 12 * 2 + 2 * 2. *)
Lemma target_integrand_expansion_witness :
  exists j1,
    TargetObjective.j_func Q ToyObjective.eval_geom_mapping
      ToyObjective.interpolate_at_local_vals ∅ ToyObjective.target_state
      [[0]] [[3]] [[1 + 2]] 1 0 = Some j1
    /\ forall q h_q, [[2]] !! q = Some h_q ->
         exists x0 x1 d_q,
           [0 + (0 + 10 - (1 + 3)) * (0 + 10 - (1 + 3))] !! q = Some x0
           /\ j1 !! q = Some x1
           /\ [[2 * (1 + 3 - (0 + 10))]] !! q = Some d_q
           /\ x1 == x0 + dot d_q h_q + squaredNorm h_q.
Proof.
  apply (target_integrand_expansion Q ToyObjective.eval_geom_mapping
           ToyObjective.interpolate_at_local_vals ∅ ToyObjective.target_state
           [[0]] [[3]] [[1]] [[2]] [[1 + 2]] 1 0); reflexivity.
Defined.

Lemma target_integrand_nonneg_witness :
  length [0 + (0 + 10 - (1 + 3)) * (0 + 10 - (1 + 3))] = rows [[1]]
  /\ Forall (fun x => 0 <= x) [0 + (0 + 10 - (1 + 3)) * (0 + 10 - (1 + 3))].
Proof.
  apply (target_integrand_nonneg Q ToyObjective.eval_geom_mapping
           ToyObjective.interpolate_at_local_vals ∅ ToyObjective.target_state
           [[0]] [[3]] [[1]] 1 0).
  reflexivity.
Defined.

(** *** PositionObjective::get_integral_functional *)

Section Position.

Import PositionObjective.

(** X26: the functional of the position objective is linear in the
    displacement with the derivative its closure [dj_du] gives: where both
    return at [u], the functional returns at [u + h] for every [h] of the
    shape of [u], and at every point [q] its value there is the value at
    [u] plus the inner product of the row [q] of [dj_du] with the row [q]
    of [h]. *)
Theorem position_functional_is_linear dim_ (pts u h uh : MatrixXd)
    (j0 : VectorXd) (d : MatrixXd) :
  add_matrix u h = Some uh ->
  j dim_ pts u = Some j0 ->
  dj_du dim_ pts u = Some d ->
  exists j1,
    j dim_ pts uh = Some j1
    /\ forall q h_q, h !! q = Some h_q ->
         exists x0 x1 d_q,
           j0 !! q = Some x0 /\ j1 !! q = Some x1 /\ d !! q = Some d_q
           /\ x1 == x0 + dot d_q h_q.
Proof.
  intros A J D. apply add_matrix_Some in A as (R & -> & Sh).
  unfold j, dj_du, unit_column in *.
  destruct (dim_ <? cols u)%nat eqn:Hd; [|discriminate]. apply Nat.ltb_lt in Hd.
  injection D as <-.
  destruct (col u dim_) as [a|] eqn:Ca; [|discriminate].
  destruct (col pts dim_) as [b|] eqn:Cb; [|discriminate].
  cbn [mbind option_bind] in *.
  apply add_Some in J as [Lab ->].
  assert (La : length a = rows u) by (symmetry; eapply length_mapM, Ca).
  unfold rows, MatrixXd, VectorXd in *.
  assert (Ch : exists c, col (zip_with (zip_with Qplus) u h) dim_ = Some c
             /\ length c = length u
             /\ forall q h_q, h !! q = Some h_q ->
                  exists x y, a !! q = Some x /\ h_q !! dim_ = Some y
                              /\ c !! q = Some (x + y)).
  { unfold col in *. apply mapM_Some in Ca.
    assert (S : is_Some (mapM (fun r : list Q => r !! dim_)
                           (zip_with (zip_with Qplus) u h))).
    { apply mapM_is_Some, Forall_forall. intros r Hr.
      apply list_elem_of_lookup_1 in Hr as [q Hr].
      apply lookup_zip_with_Some in Hr as (u_q & h_q & -> & Hu & Hh).
      destruct (Forall2_lookup_l _ _ _ _ _ Ca Hu) as (x & _ & Hx).
      pose proof (Sh _ _ _ Hu Hh) as L.
      apply lookup_lt_Some in Hx.
      apply lookup_lt_is_Some_2. rewrite length_zip_with. lia. }
    destruct S as [c C]. exists c. split; [exact C|]. split.
    { apply length_mapM in C. rewrite length_zip_with in C. lia. }
    intros q h_q Hh. apply mapM_Some in C.
    destruct (lookup_lt_is_Some_2 u q) as [u_q Hu];
      [rewrite R; eapply lookup_lt_Some, Hh|].
    destruct (Forall2_lookup_l _ _ _ _ _ Ca Hu) as (x & Hx & Ex).
    pose proof (Sh _ _ _ Hu Hh) as L.
    destruct (lookup_lt_is_Some_2 h_q dim_) as [y Hy];
      [apply lookup_lt_Some in Ex; lia|].
    assert (Hz : zip_with (zip_with Qplus) u h !! q = Some (zip_with Qplus u_q h_q))
      by (apply lookup_zip_with_Some; eauto).
    destruct (Forall2_lookup_l _ _ _ _ _ C Hz) as (z & Hz' & Ez).
    exists x, y. repeat split; try assumption.
    apply lookup_zip_with_Some in Ez as (x' & y' & -> & Ex' & Ey').
    unfold MatrixXd, VectorXd in *.
    assert (x' = x) by congruence. assert (y' = y) by congruence.
    subst. exact Hz'. }
  destruct Ch as (c & -> & Lc & Hc). cbn [mbind option_bind].
  unfold add. replace (length c =? length b)%nat with true
    by (symmetry; apply Nat.eqb_eq; lia).
  eexists. split; [reflexivity|].
  intros q h_q Hh. destruct (Hc q h_q Hh) as (x & y & Hx & Hy & Hcq).
  destruct (lookup_lt_is_Some_2 b q) as [p Hp];
    [apply lookup_lt_Some in Hx; lia|].
  exists (x + p), (x + y + p), (<[dim_ := 1]> (Zero (cols u))).
  repeat split.
  - apply lookup_zip_with_Some. eauto.
  - apply lookup_zip_with_Some. eauto.
  - apply lookup_repeat. apply lookup_lt_Some in Hx. lia.
  - rewrite (dot_unit _ _ _ y) by assumption. ring.
Qed.

End Position.

(** Two points in the plane, the axis 1: the functional reads the second
    coordinate of the displaced points. *)
Lemma position_functional_is_linear_witness :
  exists j1,
    PositionObjective.j 1 [[1; 2]; [3; 4]] [[5 + 1; 6 + 2]; [7 + 3; 8 + 4]] = Some j1
    /\ forall q h_q, [[1; 2]; [3; 4]] !! q = Some h_q ->
         exists x0 x1 d_q,
           [6 + 2; 8 + 4] !! q = Some x0 /\ j1 !! q = Some x1
           /\ [[0; 1]; [0; 1]] !! q = Some d_q
           /\ x1 == x0 + dot d_q h_q.
Proof.
  apply (position_functional_is_linear 1 [[1; 2]; [3; 4]] [[5; 6]; [7; 8]]
           [[1; 2]; [3; 4]]); reflexivity.
Defined.

(** *** BarycenterTargetObjective: the gradient at the target *)

Section Barycenter.

Import BarycenterTargetObjective.


Section AtTarget.

Variable this : t.
Variables center target : VectorXd.
Hypothesis at_target :
  forall d, (d < dim_ this)%nat ->
    exists center_d target_d,
      center !! d = Some center_d /\ target !! d = Some target_d
      /\ center_d - target_d == 0.
Hypothesis volume : forall d, (d < dim_ this)%nat -> ~ objv this == 0.



End AtTarget.



End Barycenter.


(** *** TransientObjective::compute_partial_gradient *)

Section TransientGradient.

Import TransientObjective.

Lemma nth_add_scaled (term v term' : VectorXd) w k :
  add term (scale w v) = Some term' ->
  (k < length term)%nat ->
  nth k term' 0 = nth k term 0 + w * nth k v 0 /\ length term' = length term.
Proof.
  unfold add, scale. rewrite length_map.
  destruct (length term =? length v)%nat eqn:L; [|discriminate].
  apply Nat.eqb_eq in L. intros [= <-]. split.
  - revert term v L H. induction k as [|k IH]; intros [|x term] [|y v]; cbn;
      try discriminate; try lia; intros [= L] Hk; [reflexivity|].
    apply IH; [assumption|lia].
  - rewrite length_zip_with, length_map. lia.
Qed.

Section Coefficient.

Variable weights : list Q.
Variable obj_gradient : nat -> DesignParameter -> VectorXd.
Variable param : DesignParameter.
Variable k : nat.

Lemma gradient_loop_none l :
  foldl (fun term i =>
           term ← term; weight ← weights !! i;
           add term (scale weight (obj_gradient i param)))
        None l = None.
Proof. induction l; [reflexivity|assumption]. Qed.

Lemma gradient_loop_coefficient l : forall term g,
  foldl (fun term i =>
           term ← term; weight ← weights !! i;
           add term (scale weight (obj_gradient i param)))
        (Some term) l = Some g ->
  (k < length term)%nat ->
  foldl (fun value i =>
           value ← value; weight ← weights !! i;
           Some (value + weight * nth k (obj_gradient i param) 0))
        (Some (nth k term 0)) l = Some (nth k g 0)
  /\ length g = length term.
Proof.
  induction l as [|i l IH]; intros term g; cbn [foldl].
  - intros [= <-]. tauto.
  - cbn [mbind option_bind]. destruct (weights !! i) as [w|];
      cbn [mbind option_bind]; [|rewrite gradient_loop_none; discriminate].
    destruct (add term (scale w (obj_gradient i param))) as [term1|] eqn:A;
      [|rewrite gradient_loop_none; discriminate].
    intros G Hk. destruct (nth_add_scaled _ _ _ _ k A Hk) as [N L].
    rewrite <- N, <- L. apply IH; [exact G|lia].
Qed.

End Coefficient.

(** X27: the gradient of a transient objective has [full_dim] entries, and
    its coefficient [k] is the transient value, under the same rule, of
    the coefficient [k] of the gradients of the wrapped objective at the
    time steps: gradient and value use the same quadrature in time. *)
Theorem transient_gradient_by_coefficient time_steps dt rule obj_gradient param g k :
  TransientObjective.compute_partial_gradient time_steps dt rule obj_gradient param
    = Some g ->
  (k < full_dim param)%nat ->
  length g = full_dim param
  /\ TransientObjective.value time_steps dt rule
       (fun i => nth k (obj_gradient i param) 0)
     = Some (nth k g 0).
Proof.
  unfold TransientObjective.compute_partial_gradient, TransientObjective.value.
  destruct (get_transient_quadrature_weights time_steps dt rule) as [weights|];
    [|discriminate].
  cbn [mbind option_bind]. intros G Hk.
  apply (gradient_loop_coefficient _ _ _ k) in G as [V L];
    [|rewrite Zero_length; exact Hk].
  rewrite Zero_length in L. split; [exact L|].
  rewrite nth_Zero in V. exact V.
Qed.

End TransientGradient.

(** The trapezoidal rule over two steps of length 1, on gradients that
    are (i, 2 i) at the step i. *)
Lemma transient_gradient_by_coefficient_witness :
  exists g,
    TransientObjective.compute_partial_gradient 2 1 "trapezoidal"
      ToySum.step_gradient ToySum.two_entries = Some g
    /\ length g = 2%nat
    /\ TransientObjective.value 2 1 "trapezoidal"
         (fun i => nth 1 (ToySum.step_gradient i ToySum.two_entries) 0)
       = Some (nth 1 g 0).
Proof.
  eexists. split; [vm_compute; reflexivity|].
  apply (transient_gradient_by_coefficient 2 1 "trapezoidal"
           ToySum.step_gradient ToySum.two_entries _ 1).
  - vm_compute. reflexivity.
  - cbn. lia.
Defined.

End ObjectiveMore.
